(** * str.db: the sorted collection engine and the connection factory

    A shallow embedding of [src/libs/collection.ts] (class [Collection]) and
    of [src/libs/database.ts] (function [connect]), and the properties of
    the specification checked against them.

    Modelling choices.
    - A record (a JS object) is a finite map from property names to values:
      its own properties.  What every object inherits from
      [Object.prototype] is the list [Object_prototype_members]; a
      statement that depends on a name being found nowhere says so with
      [inherited].  A record is a value, without identity: one object
      stored at two indices of an array is outside the model, and so is an
      array that holds [null].
    - Values are the integers among JS numbers, ASCII strings and
      [undefined]; a string converts to a number when it is a signed run
      of decimal digits.
    - An array lives in a store and is referred to by its location, so that
      two collections wrapping the same array alias each other.
    - [insert], [update] and [remove] are the bodies of the [async]
      methods: the part that runs before the first suspension point,
      followed by the call of [save]; [call_insert], [call_update] and
      [call_remove] are what a caller of the method gets, a promise.
    - [save] is modelled with a write that succeeds; the calls of [save] are
      recorded in the order they are made.  When the write fails the
      method rejects after the array has changed: a statement below says
      what a method returns as a hypothesis, or says only that the result
      is not false, and holds in that case too.
    - [Array_sort] is a stable insertion sort: the result of
      [Array.prototype.sort] for a comparator that is a consistent
      ordering, which is all the language fixes.  The statements that name
      the sorted result assume such a comparator or speak of a permutation
      only. *)

From stdpp Require Import gmap strings list fin_maps.
From Stdlib Require Import ZArith Lia Ascii.

Open Scope Z_scope.

(** ** Values and records *)

Inductive value : Type :=
  | VNum (n : Z)
  | VStr (s : string)
  | VUndef.

#[global] Instance value_eq_dec : EqDecision value.
Proof. solve_decision. Defined.

(** An [Element] is an object: a finite map [gmap string value] of its own
    properties.  [Comparator<E>]: only the sign of the result is looked at;
    a NaN, which is neither negative nor positive, is 0 here. *)
Definition Comparator : Type := gmap string value -> gmap string value -> Z.

(** [Condition<E>] *)
Definition Condition : Type := gmap string value -> bool.

Inductive error : Type :=
  | TypeError (msg : string)
  | SystemError (code : string).

(** How a body ends: with a value, or with an exception.  In the body of
    an [async] method the exception becomes the reason of the rejected
    promise the call returns, see [async].  [Stuck] is the model running
    out of loop fuel or reading outside the array; the theorems below show
    that it does not happen. *)
Inductive completion (A : Type) : Type :=
  | Normal (a : A)
  | Throw (e : error)
  | Stuck.
Arguments Normal {A} a.
Arguments Throw {A} e.
Arguments Stuck {A}.

(** ** The relational operators of JS on the modelled values *)

Definition digit_of (c : Ascii.ascii) : option Z :=
  let n := Z.of_N (Ascii.N_of_ascii c) in
  if (48 <=? n) && (n <=? 57) then Some (n - 48) else None.

Fixpoint digits_to_number (acc : Z) (s : string) : option Z :=
  match s with
  | EmptyString => Some acc
  | String c s' =>
      match digit_of c with
      | Some d => digits_to_number (10 * acc + d) s'
      | None => None
      end
  end.

(** [StringToNumber] on signed decimal integer literals; [None] is NaN.
    The empty string converts to 0.  Other numeric literals of JS (white
    space around the digits, a fraction, an exponent, a radix prefix) are
    outside the modelled values. *)
Definition StringToNumber (s : string) : option Z :=
  match s with
  | EmptyString => Some 0
  | String "-"%char (String c s') => Z.opp <$> digits_to_number 0 (String c s')
  | String "+"%char (String c s') => digits_to_number 0 (String c s')
  | _ => digits_to_number 0 s
  end.

(** [ToNumber]; [None] is NaN. *)
Definition ToNumber (v : value) : option Z :=
  match v with
  | VNum n => Some n
  | VStr s => StringToNumber s
  | VUndef => None
  end.

(** [a < b]: two strings are compared by bytes, which are the code units
    of an ASCII string, anything else as numbers, and a comparison with
    NaN is false. *)
Definition js_lt (a b : value) : bool :=
  match a, b with
  | VStr s, VStr t => String.ltb s t
  | _, _ =>
      match ToNumber a, ToNumber b with
      | Some x, Some y => x <? y
      | _, _ => false
      end
  end.

(** [a > b] *)
Definition js_gt (a b : value) : bool := js_lt b a.

(** ** Property access *)

(** The property name that [this.primaryKey] denotes: the field is
    [undefined] until the constructor assigns it, and [undefined] used as a
    property key is the name "undefined". *)
Definition ToPropertyKey (k : option string) : string :=
  match k with
  | Some s => s
  | None => "undefined"%string
  end.

(** [a[k]] *)
Definition get (a : gmap string value) (k : option string) : value :=
  default VUndef (a !! ToPropertyKey k).

(** [Reflect.has(el, key)] on the own properties of [el]; the names [el]
    inherits are those of [inherited]. *)
Definition Reflect_has (el : gmap string value) (key : string) : bool :=
  bool_decide (is_Some (el !! key)).

(** [Object.assign(target, source)]: the properties of [source] win.  The
    code mutates [target] in place; here the merged record is put back at
    the index it was read from. *)
Definition Object_assign (target source : gmap string value) : gmap string value :=
  source ∪ target.

(** ** Collection *)

(** [defaultComparator], an arrow function closed over [this]: it reads
    [this.primaryKey] when it is called. *)
Definition defaultComparator (this_primaryKey : option string) : Comparator :=
  fun a b =>
    if js_lt (get a this_primaryKey) (get b this_primaryKey) then -1
    else if js_gt (get a this_primaryKey) (get b this_primaryKey) then 1
    else 0.

(** [Array.prototype.sort(comparator)]: a stable sort; a negative or zero
    result keeps the first argument first.  The order is that of the
    engine when [cmp] is a consistent ordering. *)
Fixpoint sort_insert (cmp : Comparator) (x : gmap string value)
    (l : list (gmap string value)) : list (gmap string value) :=
  match l with
  | [] => [x]
  | y :: l' => if cmp x y <=? 0 then x :: y :: l' else y :: sort_insert cmp x l'
  end.

Fixpoint Array_sort (cmp : Comparator) (l : list (gmap string value))
    : list (gmap string value) :=
  match l with
  | [] => []
  | x :: l' => sort_insert cmp x (Array_sort cmp l')
  end.

(** [Array.prototype.splice(index, 0, el)] and [splice(index, 1)] *)
Definition splice_insert {A} (l : list A) (index : nat) (el : A) : list A :=
  take index l ++ el :: drop index l.

Definition splice_remove {A} (l : list A) (index : nat) : list A :=
  take index l ++ drop (S index) l.

(** A value stored under a name of the root object: an array, by the
    location of the array in the store, or a JSON value of another kind. *)
Inductive prop : Type :=
  | PArray (l : nat)
  | PNull
  | PBool (b : bool)
  | PNumber (n : Z)
  | PString (s : string)
  | PObject.

#[global] Instance is_array_dec (p : prop) : Decision (exists l, p = PArray l).
Proof.
  destruct p as [l| | | | |];
    first [left; by exists l | right; intros [l' H]; discriminate].
Defined.

(** The state a connection works on: [data], the root object; the arrays
    of the heap; and the calls of [save] made so far, latest first. *)
Record World : Type := mkWorld {
  data : gmap string prop;
  store : list (list (gmap string value));
  saves : list (string * nat)
}.

(** A computation on the world that ends as a [completion]. *)
Definition M (A : Type) : Type := World -> completion A * World.

Definition ret {A} (a : A) : M A := fun w => (Normal a, w).

Definition throw {A} (e : error) : M A := fun w => (Throw e, w).

Definition stuck {A} : M A := fun w => (Stuck, w).

Definition bind {A B} (m : M A) (k : A -> M B) : M B :=
  fun w =>
    match m w with
    | (Normal a, w') => k a w'
    | (Throw e, w') => (Throw e, w')
    | (Stuck, w') => (Stuck, w')
    end.

Notation "x <- m ;; k" := (bind m (fun x => k))
  (at level 20, m at level 99, k at level 200, only parsing).

(** A call of an [async] method whose promise is dropped: the part up to
    the first suspension point runs, a rejection reaches nobody. *)
Definition not_awaited {A} (m : M A) : M unit :=
  fun w =>
    match m w with
    | (Stuck, w') => (Stuck, w')
    | (_, w') => (Normal tt, w')
    end.

Record Collection : Type := mkCollection {
  comparator : Comparator;
  name : string;
  primaryKey : string;
  elements : nat
}.

(** Reading [this.elements] and mutating that array in place. *)
Definition this_elements (this : Collection) : M (list (gmap string value)) :=
  fun w =>
    match store w !! elements this with
    | Some els => (Normal els, w)
    | None => (Stuck, w)
    end.

Definition set_elements (this : Collection) (els : list (gmap string value)) : M unit :=
  fun w => (Normal tt, mkWorld (data w) (<[elements this := els]> (store w)) (saves w)).

(** [save(name, elements)] of [connect], run to its end with a write that
    succeeds: binds the array under the name and writes the root object
    out. *)
Definition save (name0 : string) (elements0 : nat) : M unit :=
  fun w => (Normal tt,
            mkWorld (<[name0 := PArray elements0]> (data w)) (store w)
                    ((name0, elements0) :: saves w)).

Definition startSaving (this : Collection) : M unit :=
  save (name this) (elements this).

(** The loop of [searchIndex]. *)
Fixpoint search_loop (fuel : nat) (cmp : Comparator)
    (els : list (gmap string value)) (el : gmap string value)
    (left right : Z) : option (Z * bool) :=
  match fuel with
  | O => None
  | S fuel' =>
      if left <=? right then
        let mid := (left + right) / 2 in
        match els !! Z.to_nat mid with
        | None => None
        | Some e =>
            let c := cmp el e in
            if c <? 0 then search_loop fuel' cmp els el left (mid - 1)
            else if 0 <? c then search_loop fuel' cmp els el (mid + 1) right
            else Some (mid, true)
        end
      else Some (left, false)
  end.

Definition searchIndex (this : Collection) (el : gmap string value) : M (Z * bool) :=
  if negb (Reflect_has el (primaryKey this)) then
    throw (TypeError "cannot find the index without the primary key")
  else
    els <- this_elements this ;;
    match search_loop (S (length els)) (comparator this) els el
            0 (Z.of_nat (length els) - 1) with
    | Some r => ret r
    | None => stuck
    end.

Definition insert (this : Collection) (el : gmap string value) : M bool :=
  r <- searchIndex this el ;;
  let '(index, found) := r in
  if found then ret false
  else
    els <- this_elements this ;;
    _ <- set_elements this (splice_insert els (Z.to_nat index) el) ;;
    _ <- startSaving this ;;
    ret true.

Definition update (this : Collection) (el : gmap string value) : M bool :=
  if negb (Reflect_has el (primaryKey this)) then
    throw (TypeError "cannot update an element without the primary key")
  else
    r <- searchIndex this el ;;
    let '(index, found) := r in
    if found then
      els <- this_elements this ;;
      match els !! Z.to_nat index with
      | None => stuck
      | Some e =>
          _ <- set_elements this (<[Z.to_nat index := Object_assign e el]> els) ;;
          _ <- startSaving this ;;
          ret true
      end
    else ret false.

Definition remove (this : Collection) (el : gmap string value) : M bool :=
  r <- searchIndex this el ;;
  let '(index, found) := r in
  if found then
    els <- this_elements this ;;
    _ <- set_elements this (splice_remove els (Z.to_nat index)) ;;
    _ <- startSaving this ;;
    ret true
  else ret false.

Definition find (this : Collection) (el : gmap string value)
    : M (option (gmap string value)) :=
  r <- searchIndex this el ;;
  let '(index, found) := r in
  if found then
    els <- this_elements this ;;
    ret (els !! Z.to_nat index)
  else ret None.

(** The loop of [removeAll]: [for (const el of this)] walks the array
    itself by index [i], while [remove] splices it. *)
Fixpoint removeAll_loop (fuel : nat) (this : Collection) (cond : option Condition)
    (i : nat) (length0 : Z) : M Z :=
  match fuel with
  | O => stuck
  | S fuel' =>
      els <- this_elements this ;;
      match els !! i with
      | None => ret length0
      | Some el =>
          match cond with
          | None =>
              _ <- not_awaited (remove this el) ;;
              removeAll_loop fuel' this cond (S i) (length0 + 1)
          | Some c =>
              if c el then
                _ <- not_awaited (remove this el) ;;
                removeAll_loop fuel' this cond (S i) (length0 + 1)
              else removeAll_loop fuel' this cond (S i) length0
          end
      end
  end.

Definition removeAll (this : Collection) (cond : option Condition) : M Z :=
  els <- this_elements this ;;
  removeAll_loop (S (length els)) this cond 0 0.

(** Iterating the collection to its end, without mutation in between. *)
Definition iterate (this : Collection) : M (list (gmap string value)) :=
  this_elements this.

Record InternalCollectionOptions : Type := mkInternalCollectionOptions {
  io_name : string;
  io_comparator : option Comparator;
  io_elements : nat;
  io_primaryKey : string
}.

(** The constructor.  [this.comparator] is [options.comparator] or the
    arrow function [defaultComparator]; the array is sorted in place with
    it on the second line, and [this.primaryKey] is assigned on the third,
    so the default comparator runs the sort with [this.primaryKey] still
    undefined.  The field [comparator] of the result is the comparator as
    it behaves once the constructor has returned. *)
Definition new_Collection (options : InternalCollectionOptions) : M Collection :=
  fun w =>
    let this_comparator := default (defaultComparator None) (io_comparator options) in
    match store w !! io_elements options with
    | None => (Stuck, w)
    | Some els =>
        let sorted := Array_sort this_comparator els in
        (Normal {| comparator :=
                     default (defaultComparator (Some (io_primaryKey options)))
                             (io_comparator options);
                   name := io_name options;
                   primaryKey := io_primaryKey options;
                   elements := io_elements options |},
         mkWorld (data w) (<[io_elements options := sorted]> (store w)) (saves w))
    end.

(** ** connect *)

(** A root object with the arrays it refers to. *)
Record JSONData : Type := mkJSONData {
  root : gmap string prop;
  arrays : list (list (gmap string value))
}.

(** What [databaseFile.read()] hands back: a string, or, when the adapter
    reads asynchronously, a promise together with the outcome it settles
    to ([Throw] for a rejection). *)
Inductive read_value : Type :=
  | RString (text : string)
  | RPromise (outcome : completion string).

(** The string [JSON.parse] works on ([ToString] of its argument). *)
Definition ToString (v : read_value) : string :=
  match v with
  | RString text => text
  | RPromise _ => "[object Promise]"%string
  end.

(** [DatabaseFile]: how a call of [read()] ends. *)
Record DatabaseFile : Type := mkDatabaseFile {
  read : completion read_value
}.

(** [createFile(path)] of [src/libs/database-file.ts]: [read] is [async]
    and returns the promise of [readFile(path, "utf-8")]; [readFile]
    stands for the file system. *)
Definition createFile (readFile : string -> completion string) (path : string)
    : DatabaseFile :=
  mkDatabaseFile (Normal (RPromise (readFile path))).

(** The option [file]: a path or an adapter. *)
Inductive file_option : Type :=
  | FilePath (path : string)
  | FileAdapter (f : DatabaseFile).

Record DatabaseOptions : Type := mkDatabaseOptions {
  file : file_option;
  init : option JSONData
}.

Record CollectionOptions : Type := mkCollectionOptions {
  co_name : string;
  co_primaryKey : string;
  co_comparator : option Comparator
}.

(** What [JSON.parse] returns: an object, or a JSON value of another kind
    (null, a number, a string, a boolean, an array). *)
Inductive parsed : Type :=
  | ParsedObject (d : JSONData)
  | ParsedOther.

(** What [connect] leaves behind: [data], and the promises that were
    rejected with nobody handling the rejection. *)
Record Connection : Type := mkConnection {
  conn_data : parsed;
  unhandled : list error
}.

(** [connect], up to the returned factory: [data] is the parsed content,
    or [init] when reading or parsing throws inside the [try].
    [JSON_parse] stands for the built-in, [None] being a SyntaxError.  A
    promise handed back by [read()] is turned into a string by
    [JSON.parse] and dropped: if it is rejected, nothing handles it.  The
    options [delay], [beautify] and [onSaved] bear on the writing of the
    file only and are left out. *)
Definition connect (readFile : string -> completion string)
    (JSON_parse : string -> option parsed)
    (options : DatabaseOptions) : completion Connection :=
  let databaseFile :=
    match file options with
    | FilePath path => createFile readFile path
    | FileAdapter f => f
    end in
  let init0 := default (mkJSONData ∅ []) (init options) in
  match read databaseFile with
  | Normal v =>
      Normal (mkConnection
                (default (ParsedObject init0) (JSON_parse (ToString v)))
                (match v with
                 | RPromise (Throw e) => [e]
                 | _ => []
                 end))
  | _ => Normal (mkConnection (ParsedObject init0) [])
  end.

(** The world the factory starts on when [data] is an object. *)
Definition world_of (d : JSONData) : World :=
  mkWorld (root d) (arrays d) [].

(** The names every object inherits from [Object.prototype]. *)
Definition Object_prototype_members : list string :=
  ["constructor"; "__defineGetter__"; "__defineSetter__"; "hasOwnProperty";
   "__lookupGetter__"; "__lookupSetter__"; "isPrototypeOf";
   "propertyIsEnumerable"; "toString"; "valueOf"; "__proto__";
   "toLocaleString"]%string.

Definition inherited (name0 : string) : bool :=
  bool_decide (name0 ∈ Object_prototype_members).

(** Truthiness of a value of the root object. *)
Definition truthy (p : prop) : bool :=
  match p with
  | PArray _ => true
  | PNull => false
  | PBool b => b
  | PNumber n => negb (n =? 0)
  | PString s => negb (String.eqb s "")
  | PObject => true
  end.

(** [data[name] || (data[name] = [])]: the read finds an own property of
    the root object, or else a member inherited from [Object.prototype],
    a function or an object; the assignment makes an own property. *)
Definition get_or_create (name0 : string) : M prop :=
  fun w =>
    let fresh_array :=
      (Normal (PArray (length (store w))),
       mkWorld (<[name0 := PArray (length (store w))]> (data w))
               (store w ++ [[]]) (saves w)) in
    match data w !! name0 with
    | Some p => if truthy p then (Normal p, w) else fresh_array
    | None => if inherited name0 then (Normal PObject, w) else fresh_array
    end.

(** The factory returned by [connect]. *)
Definition database (options : CollectionOptions) : M Collection :=
  elements0 <- get_or_create (co_name options) ;;
  match elements0 with
  | PArray l =>
      new_Collection {| io_name := co_name options;
                        io_comparator := co_comparator options;
                        io_primaryKey := co_primaryKey options;
                        io_elements := l |}
  | _ =>
      throw (TypeError ("Property " +:+ co_name options
                        +:+ " in the database is not an array."))
  end.

(** ** What the properties are stated with *)

(** The backing sequence is in the order of the comparator. *)
Definition sorted (cmp : Comparator) (els : list (gmap string value)) : Prop :=
  forall (i j : nat) (a b : gmap string value),
    (i < j)%nat -> els !! i = Some a -> els !! j = Some b -> cmp a b <= 0.

(** The requirement of the data model on an ordering, for the records of
    [dom]: the signs are antisymmetric, the order is transitive, every
    record carries the key field, two records tie exactly when their
    key-field values are equal, and a record of [dom] merged into one it
    ties with is a record of [dom]. *)
Record ordering (cmp : Comparator) (pk : string)
    (dom : gmap string value -> Prop) : Prop := mkOrdering {
  ord_antisym : forall a b, dom a -> dom b -> (cmp a b < 0 <-> 0 < cmp b a);
  ord_trans : forall a b c, dom a -> dom b -> dom c ->
      cmp a b <= 0 -> cmp b c <= 0 -> cmp a c <= 0;
  ord_has_key : forall a, dom a -> is_Some (a !! pk);
  ord_key : forall a b, dom a -> dom b -> (cmp a b = 0 <-> a !! pk = b !! pk);
  ord_assign : forall e el, dom e -> dom el -> cmp el e = 0 ->
      dom (Object_assign e el)
}.

(** The records whose key field is a number. *)
Definition number_key (pk : string) (a : gmap string value) : Prop :=
  exists n : Z, a !! pk = Some (VNum n).

(** The array a collection wraps, in a given world. *)
Definition elements_of (this : Collection) (w : World)
    : option (list (gmap string value)) :=
  store w !! elements this.

(** A caller's mutations, one after the other. *)
Inductive operation : Type :=
  | Insert (el : gmap string value)
  | Update (el : gmap string value)
  | Remove (el : gmap string value)
  | RemoveAll (cond : option Condition).

(** One mutation; the caller goes on whatever it returned or threw. *)
Definition perform (this : Collection) (op : operation) : M unit :=
  match op with
  | Insert el => not_awaited (insert this el)
  | Update el => not_awaited (update this el)
  | Remove el => not_awaited (remove this el)
  | RemoveAll cond => not_awaited (removeAll this cond)
  end.

Fixpoint run (this : Collection) (ops : list operation) : M unit :=
  match ops with
  | [] => ret tt
  | op :: ops' => _ <- perform this op ;; run this ops'
  end.

(** An operation whose argument is a record of [dom]. *)
Definition on_dom (dom : gmap string value -> Prop) (op : operation) : Prop :=
  match op with
  | Insert el | Update el | Remove el => dom el
  | RemoveAll _ => True
  end.

(** The world after a mutating method has spliced or updated its array
    and called [save]. *)
Definition after_mutation (this : Collection)
    (els : list (gmap string value)) (w : World) : World :=
  mkWorld (<[name this := PArray (elements this)]> (data w))
          (<[elements this := els]> (store w))
          ((name this, elements this) :: saves w).

(** Key values on which [<] and [>] decide everything: two values with
    neither below the other are the same value. *)
Definition total_order_on (P : value -> Prop) : Prop :=
  forall a b, P a -> P b -> js_lt a b = false -> js_gt a b = false -> a = b.

Definition is_number (v : value) : Prop := exists n : Z, v = VNum n.

Definition is_string (v : value) : Prop := exists s : string, v = VStr s.

(** The records the loop of [removeAll] passes to [remove]. *)
Definition selected (cond : option Condition) (el : gmap string value) : Prop :=
  match cond with
  | None => True
  | Some c => c el = true
  end.

(** ** Sample data *)

Definition user (id : Z) : gmap string value := {[ "id"%string := VNum id ]}.

Definition named (id : Z) (s : string) : gmap string value :=
  {[ "id"%string := VNum id; "name"%string := VStr s ]}.

(** [(a, b) => a.id - b.id] and [(a, b) => b.id - a.id]; when an id does
    not convert to a number the difference is NaN. *)
Definition ascending : Comparator :=
  fun a b =>
    match ToNumber (get a (Some "id"%string)),
          ToNumber (get b (Some "id"%string)) with
    | Some x, Some y => x - y
    | _, _ => 0
    end.

Definition descending : Comparator := fun a b => ascending b a.

(** A root object with one array under "users". *)
Definition users_world (els : list (gmap string value)) : World :=
  mkWorld {[ "users"%string := PArray 0 ]} [els] [].

Definition users_options (cmp : option Comparator) : CollectionOptions :=
  mkCollectionOptions "users" "id" cmp.

(** The collection the factory returns for [users_options cmp]. *)
Definition users_collection (cmp : option Comparator) : Collection :=
  mkCollection (default (defaultComparator (Some "id"%string)) cmp)
               "users" "id" 0.

(** The message of the factory for a property that is not an array. *)
Definition not_an_array (name0 : string) : error :=
  TypeError ("Property " +:+ name0 +:+ " in the database is not an array.").

(** A file system without any file, and a parser that accepts no text at
    all. *)
Definition no_file : string -> completion string :=
  fun _ => Throw (SystemError "ENOENT").

Definition rejects_all : string -> option parsed := fun _ => None.

(** ** Scenarios: a caller's program on a connection *)

(** A collection with the default ordering, then one insert: the iteration
    order at the end, and that sequence sorted from scratch with the
    comparator of the collection. *)
Definition insert_then_iterate (el : gmap string value)
    : M (list (gmap string value) * list (gmap string value)) :=
  users <- database (users_options None) ;;
  _ <- insert users el ;;
  els <- iterate users ;;
  ret (els, Array_sort (comparator users) els).

(** A collection with the default ordering, as the constructor leaves it. *)
Definition construct_then_iterate
    : M (list (gmap string value) * list (gmap string value)) :=
  users <- database (users_options None) ;;
  els <- iterate users ;;
  ret (els, Array_sort (comparator users) els).

Definition removeAll_then_iterate : M (Z * list (gmap string value)) :=
  users <- database (users_options None) ;;
  n <- removeAll users None ;;
  els <- iterate users ;;
  ret (n, els).

Definition insert_then_find (el : gmap string value)
    : M (bool * option (gmap string value) * list (gmap string value)) :=
  users <- database (users_options None) ;;
  b <- insert users el ;;
  o <- find users el ;;
  els <- iterate users ;;
  ret (b, o, els).

(** Two collections for one name, with orderings of their own: an insert
    through the first, a lookup through the second. *)
Definition insert_then_find_other (cmp1 cmp2 : option Comparator)
    (el : gmap string value)
    : M (bool * option (gmap string value) * list (gmap string value)) :=
  first <- database (users_options cmp1) ;;
  second <- database (users_options cmp2) ;;
  b <- insert first el ;;
  o <- find second el ;;
  els <- iterate second ;;
  ret (b, o, els).

(** ** Calls of the [async] methods, as their caller sees them *)

(** A promise, by what it settles to. *)
Inductive promise (A : Type) : Type :=
  | Fulfilled (a : A)
  | Rejected (e : error).
Arguments Fulfilled {A} a.
Arguments Rejected {A} e.

(** A call of an [async] method does not throw: it returns a promise, and
    an exception of the body is the rejection of that promise. *)
Definition async {A} (body : M A) : M (promise A) :=
  fun w =>
    match body w with
    | (Normal a, w') => (Normal (Fulfilled a), w')
    | (Throw e, w') => (Normal (Rejected e), w')
    | (Stuck, w') => (Stuck, w')
    end.

Definition call_insert (this : Collection) (el : gmap string value)
    : M (promise bool) := async (insert this el).

Definition call_update (this : Collection) (el : gmap string value)
    : M (promise bool) := async (update this el).

Definition call_remove (this : Collection) (el : gmap string value)
    : M (promise bool) := async (remove this el).

(** ** The lookups that take a predicate *)

(** [findAll(cond?)]: the array itself when no predicate is given, else the
    records of the iteration that satisfy it, pushed in that order. *)
Definition findAll (this : Collection) (cond : option Condition)
    : M (list (gmap string value)) :=
  match cond with
  | None => this_elements this
  | Some c =>
      els <- iterate this ;;
      ret (List.filter c els)
  end.

(** [has(arg)]: a predicate goes to [Array.prototype.find], a record to
    [find]; the answer is whether the result is not undefined. *)
Definition has (this : Collection) (arg : gmap string value + Condition) : M bool :=
  match arg with
  | inr c =>
      els <- this_elements this ;;
      ret (match List.find c els with Some _ => true | None => false end)
  | inl el =>
      o <- find this el ;;
      ret (match o with Some _ => true | None => false end)
  end.


(** * Properties *)

(** ** The binary search *)

(** A tie reported by the loop is a tie with the element at that index,
    whatever the order of the array. *)
Lemma search_loop_found fuel cmp els el left right i :
  0 <= left ->
  search_loop fuel cmp els el left right = Some (i, true) ->
  0 <= i /\ exists e, els !! Z.to_nat i = Some e /\ cmp el e = 0.
Proof.
  revert left right. induction fuel as [|fuel IH]; intros left right Hl; simpl.
  - discriminate.
  - destruct (left <=? right) eqn:Hlr; [|discriminate].
    apply Z.leb_le in Hlr.
    assert (Hmid : left <= (left + right) / 2 <= right).
    { split; [apply Z.div_le_lower_bound|apply Z.div_le_upper_bound]; lia. }
    destruct (els !! Z.to_nat ((left + right) / 2)) as [e|] eqn:He; [|discriminate].
    destruct (cmp el e <? 0) eqn:Hneg.
    + apply IH; lia.
    + destruct (0 <? cmp el e) eqn:Hpos.
      * apply IH; lia.
      * intros [= <-]. split; [lia|]. exists e. split; [done|].
        apply Z.ltb_ge in Hneg, Hpos. lia.
Qed.

(** The loop ends: each turn shrinks the interval. *)
Lemma search_loop_total fuel cmp els el left right :
  0 <= left -> left <= right + 1 -> right < Z.of_nat (length els) ->
  right - left + 1 < Z.of_nat fuel ->
  exists r, search_loop fuel cmp els el left right = Some r.
Proof.
  revert left right.
  induction fuel as [|fuel IH]; intros left right Hl Hlr1 Hr Hf; simpl.
  - lia.
  - destruct (left <=? right) eqn:Hlr; [|eauto].
    apply Z.leb_le in Hlr.
    assert (Hmid : left <= (left + right) / 2 <= right).
    { split; [apply Z.div_le_lower_bound|apply Z.div_le_upper_bound]; lia. }
    destruct (lookup_lt_is_Some_2 els (Z.to_nat ((left + right) / 2))) as [e ->]; [lia|].
    destruct (cmp el e <? 0); [apply IH; lia|].
    destruct (0 <? cmp el e); [apply IH; lia|eauto].
Qed.

Section Search.
Context (cmp : Comparator) (pk : string) (dom : gmap string value -> Prop).
Hypothesis Hord : ordering cmp pk dom.

Lemma cmp_lt_le a b c :
  dom a -> dom b -> dom c -> cmp a b < 0 -> cmp b c <= 0 -> cmp a c < 0.
Proof.
  intros Ha Hb Hc Hab Hbc.
  destruct (Z.lt_ge_cases (cmp a c) 0) as [|Hge]; [done|].
  assert (cmp c a <= 0) as Hca.
  { destruct (Z.le_gt_cases (cmp c a) 0) as [|Hgt]; [done|].
    apply (ord_antisym _ _ _ Hord a c) in Hgt; [lia|done..]. }
  pose proof (ord_trans _ _ _ Hord b c a Hb Hc Ha Hbc Hca) as Hba.
  apply (ord_antisym _ _ _ Hord a b) in Hab; [lia|done..].
Qed.

Lemma cmp_le_lt a b c :
  dom a -> dom b -> dom c -> cmp a b <= 0 -> cmp b c < 0 -> cmp a c < 0.
Proof.
  intros Ha Hb Hc Hab Hbc.
  destruct (Z.lt_ge_cases (cmp a c) 0) as [|Hge]; [done|].
  assert (cmp c a <= 0) as Hca.
  { destruct (Z.le_gt_cases (cmp c a) 0) as [|Hgt]; [done|].
    apply (ord_antisym _ _ _ Hord a c) in Hgt; [lia|done..]. }
  pose proof (ord_trans _ _ _ Hord c a b Hc Ha Hb Hca Hab) as Hcb.
  apply (ord_antisym _ _ _ Hord b c) in Hbc; [lia|done..].
Qed.

Lemma cmp_refl a : dom a -> cmp a a = 0.
Proof. intros Ha. by apply (ord_key _ _ _ Hord). Qed.

Lemma cmp_sym_0 a b : dom a -> dom b -> cmp a b = 0 -> cmp b a = 0.
Proof.
  intros Ha Hb Hab. apply (ord_key _ _ _ Hord); [done..|].
  symmetry. by apply (ord_key _ _ _ Hord a b).
Qed.

Lemma cmp_gt_lt a b : dom a -> dom b -> 0 < cmp a b -> cmp b a < 0.
Proof. intros Ha Hb Hab. by apply (ord_antisym _ _ _ Hord b a). Qed.

(** Two records that tie with each other compare alike with a third. *)
Lemma cmp_tie_l a a' b :
  dom a -> dom a' -> dom b -> cmp a a' = 0 ->
  (cmp a b < 0 <-> cmp a' b < 0) /\ (0 < cmp a b <-> 0 < cmp a' b).
Proof.
  intros Ha Ha' Hb Haa'.
  pose proof (cmp_sym_0 a a' Ha Ha' Haa') as Ha'a.
  repeat split; intros H.
  - apply (cmp_le_lt a' a b); [done..|lia|done].
  - apply (cmp_le_lt a a' b); [done..|lia|done].
  - apply (ord_antisym _ _ _ Hord b a'); [done..|].
    apply (cmp_lt_le b a a'); [done..| |lia].
    by apply (ord_antisym _ _ _ Hord b a).
  - apply (ord_antisym _ _ _ Hord b a); [done..|].
    apply (cmp_lt_le b a' a); [done..| |lia].
    by apply (ord_antisym _ _ _ Hord b a').
Qed.
End Search.

Section SortedSearch.
Context (cmp : Comparator) (pk : string) (dom : gmap string value -> Prop).
Hypothesis Hord : ordering cmp pk dom.

(** What the loop returns on a sorted array: a tie, or the index that
    splits the array into the smaller and the greater records. *)
Lemma search_loop_sorted fuel els el :
  sorted cmp els -> Forall dom els -> dom el ->
  forall left right,
    0 <= left -> left <= right + 1 -> right < Z.of_nat (length els) ->
    right - left + 1 < Z.of_nat fuel ->
    (forall (j : nat) a, Z.of_nat j < left -> els !! j = Some a -> 0 < cmp el a) ->
    (forall (j : nat) a, right < Z.of_nat j -> els !! j = Some a -> cmp el a < 0) ->
    exists (i : nat) (found : bool),
      search_loop fuel cmp els el left right = Some (Z.of_nat i, found) /\
      (i <= length els)%nat /\
      (found = true -> exists e, els !! i = Some e /\ cmp el e = 0) /\
      (found = false ->
         (forall (j : nat) a, (j < i)%nat -> els !! j = Some a -> 0 < cmp el a) /\
         (forall (j : nat) a, (i <= j)%nat -> els !! j = Some a -> cmp el a < 0)).
Proof.
  intros Hsorted Hdom Hel.
  assert (Hd : forall (j : nat) a, els !! j = Some a -> dom a).
  { intros j a Hj. eapply Forall_lookup_1; eauto. }
  induction fuel as [|fuel IH]; intros left right Hl Hlr1 Hr Hf Hlo Hhi; simpl.
  - lia.
  - destruct (left <=? right) eqn:Hlr.
    + apply Z.leb_le in Hlr.
      assert (Hmid : left <= (left + right) / 2 <= right).
      { split; [apply Z.div_le_lower_bound|apply Z.div_le_upper_bound]; lia. }
      set (mid := (left + right) / 2) in *.
      destruct (lookup_lt_is_Some_2 els (Z.to_nat mid)) as [e He]; [lia|].
      rewrite He.
      destruct (cmp el e <? 0) eqn:Hneg.
      * apply Z.ltb_lt in Hneg. apply IH; [lia..|done|].
        intros j a Hj Ha.
        destruct (decide (Z.of_nat j = mid)) as [Heq|Hne].
        { rewrite <- Heq, Nat2Z.id in He. congruence. }
        apply (cmp_lt_le cmp pk dom Hord el e a); eauto.
        apply (Hsorted (Z.to_nat mid) j); [lia|done..].
      * apply Z.ltb_ge in Hneg.
        destruct (0 <? cmp el e) eqn:Hpos.
        { apply Z.ltb_lt in Hpos. apply IH; [lia..| |done].
          intros j a Hj Ha.
          destruct (decide (Z.of_nat j = mid)) as [Heq|Hne].
          { rewrite <- Heq, Nat2Z.id in He. congruence. }
          apply (ord_antisym _ _ _ Hord a el); eauto.
          apply (cmp_le_lt cmp pk dom Hord a e el); eauto.
          - apply (Hsorted j (Z.to_nat mid)); [lia|done..].
          - apply (ord_antisym _ _ _ Hord e el); eauto. }
        apply Z.ltb_ge in Hpos.
        exists (Z.to_nat mid), true. rewrite Z2Nat.id by lia.
        split; [done|]. split; [lia|]. split; [|done].
        intros _. exists e. split; [done|lia].
    + apply Z.leb_gt in Hlr.
      exists (Z.to_nat left), false. rewrite Z2Nat.id by lia.
      split; [done|]. split; [lia|]. split; [done|].
      intros _. split.
      * intros j a Hj. apply Hlo. lia.
      * intros j a Hj. apply Hhi. lia.
Qed.

(** The same, from the bounds [searchIndex] starts with. *)
Lemma search_sorted els el :
  sorted cmp els -> Forall dom els -> dom el ->
  exists (i : nat) (found : bool),
    search_loop (S (length els)) cmp els el 0 (Z.of_nat (length els) - 1)
      = Some (Z.of_nat i, found) /\
    (i <= length els)%nat /\
    (found = true -> exists e, els !! i = Some e /\ cmp el e = 0) /\
    (found = false ->
       (forall (j : nat) a, (j < i)%nat -> els !! j = Some a -> 0 < cmp el a) /\
       (forall (j : nat) a, (i <= j)%nat -> els !! j = Some a -> cmp el a < 0)).
Proof.
  intros Hsorted Hdom Hel.
  apply search_loop_sorted; [done..|lia|lia|lia|lia| |].
  - intros j a Hj. lia.
  - intros j a Hj Ha. apply lookup_lt_Some in Ha. lia.
Qed.
End SortedSearch.

(** ** The array after a splice *)

Lemma splice_insert_lookup {A} (l : list A) (i : nat) (x : A) (j : nat) :
  (i <= length l)%nat ->
  splice_insert l i x !! j =
    if decide (j < i)%nat then l !! j
    else if decide (j = i) then Some x else l !! (j - 1)%nat.
Proof.
  intros Hi. unfold splice_insert.
  destruct (decide (j < i)%nat) as [Hlt|Hge].
  - rewrite lookup_app_l by (rewrite length_take_le; lia).
    by apply lookup_take_lt.
  - rewrite lookup_app_r by (rewrite length_take_le; lia).
    rewrite length_take_le by lia.
    destruct (decide (j = i)) as [->|Hne].
    + by rewrite Nat.sub_diag.
    + rewrite lookup_cons_ne_0 by lia. rewrite lookup_drop. f_equal. lia.
Qed.

Lemma splice_remove_lookup {A} (l : list A) (i j : nat) :
  (i <= length l)%nat ->
  splice_remove l i !! j = if decide (j < i)%nat then l !! j else l !! S j.
Proof.
  intros Hi. unfold splice_remove.
  destruct (decide (j < i)%nat) as [Hlt|Hge].
  - rewrite lookup_app_l by (rewrite length_take_le; lia).
    by apply lookup_take_lt.
  - rewrite lookup_app_r by (rewrite length_take_le; lia).
    rewrite length_take_le by lia. rewrite lookup_drop. f_equal. lia.
Qed.

Lemma splice_insert_length {A} (l : list A) (i : nat) (x : A) :
  length (splice_insert l i x) = S (length l).
Proof.
  unfold splice_insert. rewrite length_app. simpl.
  rewrite length_take, length_drop. lia.
Qed.

Lemma splice_remove_length {A} (l : list A) (i : nat) :
  (i < length l)%nat -> length (splice_remove l i) = (length l - 1)%nat.
Proof.
  intros Hi. unfold splice_remove.
  rewrite length_app, length_take, length_drop. lia.
Qed.

Lemma splice_insert_Forall {A} (P : A -> Prop) (l : list A) (i : nat) (x : A) :
  Forall P l -> P x -> Forall P (splice_insert l i x).
Proof.
  intros Hl Hx. unfold splice_insert. apply Forall_app. split.
  - by apply Forall_take.
  - constructor; [done|]. by apply Forall_drop.
Qed.

Lemma splice_remove_Forall {A} (P : A -> Prop) (l : list A) (i : nat) :
  Forall P l -> Forall P (splice_remove l i).
Proof.
  intros Hl. unfold splice_remove. apply Forall_app. split.
  - by apply Forall_take.
  - by apply Forall_drop.
Qed.

(** ** Mutations keep the array sorted *)

Section SortedMutations.
Context (cmp : Comparator) (pk : string) (dom : gmap string value -> Prop).
Hypothesis Hord : ordering cmp pk dom.

Lemma sorted_splice_insert els (i : nat) el :
  sorted cmp els -> (i <= length els)%nat ->
  Forall dom els -> dom el ->
  (forall (j : nat) a, (j < i)%nat -> els !! j = Some a -> 0 < cmp el a) ->
  (forall (j : nat) a, (i <= j)%nat -> els !! j = Some a -> cmp el a < 0) ->
  sorted cmp (splice_insert els i el).
Proof.
  intros Hs Hi Hdom Hel Hlo Hhi j1 j2 a b Hj.
  assert (Hd : forall (j : nat) a, els !! j = Some a -> dom a).
  { intros j x Hx. eapply Forall_lookup_1; eauto. }
  rewrite !splice_insert_lookup by done.
  repeat case_decide; try lia; intros Ha Hb; simplify_eq.
  - by apply (Hs j1 j2).
  - apply Z.lt_le_incl. apply (cmp_gt_lt cmp pk dom Hord); eauto.
  - apply (Hs j1 (j2 - 1)%nat); [lia|done..].
  - apply Z.lt_le_incl. apply (Hhi (j2 - 1)%nat); [lia|done].
  - apply (Hs (j1 - 1)%nat (j2 - 1)%nat); [lia|done..].
Qed.

Lemma sorted_splice_remove els (i : nat) :
  sorted cmp els -> (i <= length els)%nat -> sorted cmp (splice_remove els i).
Proof.
  intros Hs Hi j1 j2 a b Hj.
  rewrite !splice_remove_lookup by done.
  repeat case_decide; try lia; intros Ha Hb.
  - by apply (Hs j1 j2).
  - apply (Hs j1 (S j2)); [lia|done..].
  - apply (Hs (S j1) (S j2)); [lia|done..].
Qed.

(** Replacing a record by one that ties with it. *)
Lemma sorted_replace els (i : nat) e e' :
  sorted cmp els -> Forall dom els -> els !! i = Some e ->
  dom e' -> cmp e' e = 0 ->
  sorted cmp (<[i := e']> els).
Proof.
  intros Hs Hdom He He' Htie j1 j2 a b Hj.
  assert (Hd : forall (j : nat) a, els !! j = Some a -> dom a).
  { intros j x Hx. eapply Forall_lookup_1; eauto. }
  pose proof (Hd _ _ He) as Hde.
  destruct (decide (j1 = i)) as [->|Hn1]; destruct (decide (j2 = i)) as [->|Hn2];
    try lia.
  - rewrite list_lookup_insert_eq by (by eapply lookup_lt_Some).
    rewrite list_lookup_insert_ne by done.
    intros [= <-] Hb.
    pose proof (Hs i j2 e b Hj He Hb) as Hle.
    destruct (Z.le_gt_cases (cmp e' b) 0) as [|Hgt]; [done|].
    apply (cmp_tie_l cmp pk dom Hord e' e b) in Hgt; eauto. lia.
  - rewrite list_lookup_insert_ne by done.
    rewrite list_lookup_insert_eq by (by eapply lookup_lt_Some).
    intros Ha [= <-].
    pose proof (Hs j1 i a e Hj Ha He) as Hle.
    destruct (Z.le_gt_cases (cmp a e') 0) as [|Hgt]; [done|].
    apply (cmp_gt_lt cmp pk dom Hord) in Hgt; eauto.
    apply (cmp_tie_l cmp pk dom Hord e' e a) in Hgt; eauto.
    apply (ord_antisym _ _ _ Hord e a) in Hgt; eauto. lia.
  - rewrite !list_lookup_insert_ne by done. by apply (Hs j1 j2).
Qed.
End SortedMutations.

(** ** The methods, step by step *)

Arguments search_loop : simpl never.

Lemma elements_of_after_mutation this this' els els' w :
  elements this' = elements this ->
  elements_of this w = Some els ->
  elements_of this' (after_mutation this els' w) = Some els'.
Proof.
  unfold elements_of, after_mutation. simpl. intros -> Hels.
  apply list_lookup_insert_eq. by eapply lookup_lt_Some.
Qed.

Lemma searchIndex_eq this el w els :
  Reflect_has el (primaryKey this) = true ->
  elements_of this w = Some els ->
  searchIndex this el w =
    (match search_loop (S (length els)) (comparator this) els el
             0 (Z.of_nat (length els) - 1) with
     | Some r => Normal r
     | None => Stuck
     end, w).
Proof.
  unfold searchIndex, elements_of, bind, this_elements. intros -> Hels. simpl.
  rewrite Hels. by destruct (search_loop _ _ _ _ _ _) as [[??]|].
Qed.

Lemma searchIndex_throws this el w :
  Reflect_has el (primaryKey this) = false ->
  searchIndex this el w =
    (Throw (TypeError "cannot find the index without the primary key"), w).
Proof. unfold searchIndex. by intros ->. Qed.

Lemma insert_eq this el w els i found :
  Reflect_has el (primaryKey this) = true ->
  elements_of this w = Some els ->
  search_loop (S (length els)) (comparator this) els el
    0 (Z.of_nat (length els) - 1) = Some (i, found) ->
  insert this el w =
    if found then (Normal false, w)
    else (Normal true, after_mutation this (splice_insert els (Z.to_nat i) el) w).
Proof.
  intros Hhas Hels Hsearch. unfold insert, bind.
  rewrite (searchIndex_eq this el w els Hhas Hels), Hsearch.
  destruct found; [done|].
  unfold this_elements. unfold elements_of in Hels. by rewrite Hels.
Qed.

Lemma update_eq this el w els i found :
  Reflect_has el (primaryKey this) = true ->
  elements_of this w = Some els ->
  search_loop (S (length els)) (comparator this) els el
    0 (Z.of_nat (length els) - 1) = Some (i, found) ->
  update this el w =
    if found then
      match els !! Z.to_nat i with
      | Some e =>
          (Normal true,
           after_mutation this (<[Z.to_nat i := Object_assign e el]> els) w)
      | None => (Stuck, w)
      end
    else (Normal false, w).
Proof.
  intros Hhas Hels Hsearch. unfold update. rewrite Hhas. simpl. unfold bind.
  rewrite (searchIndex_eq this el w els Hhas Hels), Hsearch.
  destruct found; [|done].
  unfold this_elements. unfold elements_of in Hels. rewrite Hels.
  by destruct (els !! Z.to_nat i).
Qed.

Lemma remove_eq this el w els i found :
  Reflect_has el (primaryKey this) = true ->
  elements_of this w = Some els ->
  search_loop (S (length els)) (comparator this) els el
    0 (Z.of_nat (length els) - 1) = Some (i, found) ->
  remove this el w =
    if found then
      (Normal true, after_mutation this (splice_remove els (Z.to_nat i)) w)
    else (Normal false, w).
Proof.
  intros Hhas Hels Hsearch. unfold remove, bind.
  rewrite (searchIndex_eq this el w els Hhas Hels), Hsearch.
  destruct found; [|done].
  unfold this_elements. unfold elements_of in Hels. by rewrite Hels.
Qed.

Lemma find_eq this el w els i found :
  Reflect_has el (primaryKey this) = true ->
  elements_of this w = Some els ->
  search_loop (S (length els)) (comparator this) els el
    0 (Z.of_nat (length els) - 1) = Some (i, found) ->
  find this el w =
    (Normal (if found then els !! Z.to_nat i else None), w).
Proof.
  intros Hhas Hels Hsearch. unfold find, bind.
  rewrite (searchIndex_eq this el w els Hhas Hels), Hsearch.
  destruct found; [|done].
  unfold this_elements. unfold elements_of in Hels. by rewrite Hels.
Qed.

(** ** The methods on a sorted array *)

Section Methods.
Context (this : Collection) (dom : gmap string value -> Prop).
Hypothesis Hord : ordering (comparator this) (primaryKey this) dom.

Local Abbreviation cmp := (comparator this).

Lemma dom_Reflect_has el : dom el -> Reflect_has el (primaryKey this) = true.
Proof.
  intros Hel. unfold Reflect_has. apply bool_decide_eq_true.
  by apply (ord_has_key _ _ _ Hord).
Qed.

Lemma no_tie_of_split (els : list (gmap string value)) el (i : nat) :
  (forall (j : nat) a, (j < i)%nat -> els !! j = Some a -> 0 < cmp el a) ->
  (forall (j : nat) a, (i <= j)%nat -> els !! j = Some a -> cmp el a < 0) ->
  forall e, e ∈ els -> cmp el e <> 0.
Proof.
  intros Hlo Hhi e [j Hj]%list_elem_of_lookup.
  destruct (decide (j < i)%nat).
  - pose proof (Hlo j e ltac:(lia) Hj). lia.
  - pose proof (Hhi j e ltac:(lia) Hj). lia.
Qed.

Lemma insert_sorted (els : list (gmap string value)) el w :
  elements_of this w = Some els ->
  sorted cmp els -> Forall dom els -> dom el ->
  exists (b : bool) els' w',
    insert this el w = (Normal b, w') /\
    elements_of this w' = Some els' /\
    sorted cmp els' /\ Forall dom els' /\
    (b = false -> w' = w /\ els' = els /\ exists e, e ∈ els /\ cmp el e = 0) /\
    (b = true ->
       (forall e, e ∈ els -> cmp el e <> 0) /\
       exists i : nat, (i <= length els)%nat /\
         els' = splice_insert els i el /\ w' = after_mutation this els' w).
Proof.
  intros Hels Hs Hdom Hel.
  destruct (search_sorted cmp _ dom Hord els el Hs Hdom Hel)
    as (i & found & Hsearch & Hi & Hfound & Hsplit).
  pose proof (insert_eq this el w els _ _ (dom_Reflect_has el Hel) Hels Hsearch)
    as Hins.
  rewrite Nat2Z.id in Hins. destruct found.
  - exists false, els, w. destruct (Hfound eq_refl) as (e & He & Htie).
    repeat split; try done.
    exists e. split; [|done]. apply list_elem_of_lookup. eauto.
  - destruct (Hsplit eq_refl) as [Hlo Hhi].
    exists true, (splice_insert els i el), (after_mutation this (splice_insert els i el) w).
    split; [done|]. split; [by eapply elements_of_after_mutation|].
    split; [by eapply sorted_splice_insert|].
    split; [by apply splice_insert_Forall|].
    split; [done|]. intros _. split; [by eapply no_tie_of_split|].
    exists i. done.
Qed.

Lemma update_sorted (els : list (gmap string value)) el w :
  elements_of this w = Some els ->
  sorted cmp els -> Forall dom els -> dom el ->
  exists (b : bool) els' w',
    update this el w = (Normal b, w') /\
    elements_of this w' = Some els' /\
    sorted cmp els' /\ Forall dom els' /\
    (b = false -> w' = w /\ els' = els /\ forall e, e ∈ els -> cmp el e <> 0) /\
    (b = true ->
       exists (i : nat) e, els !! i = Some e /\ cmp el e = 0 /\
         els' = <[i := Object_assign e el]> els /\
         w' = after_mutation this els' w).
Proof.
  intros Hels Hs Hdom Hel.
  destruct (search_sorted cmp _ dom Hord els el Hs Hdom Hel)
    as (i & found & Hsearch & Hi & Hfound & Hsplit).
  pose proof (update_eq this el w els _ _ (dom_Reflect_has el Hel) Hels Hsearch)
    as Hupd.
  rewrite Nat2Z.id in Hupd. destruct found.
  - destruct (Hfound eq_refl) as (e & He & Htie). rewrite He in Hupd.
    assert (dom e) as Hde by (eapply Forall_lookup_1; eauto).
    assert (dom (Object_assign e el)) as Hda
      by (by apply (ord_assign _ _ _ Hord)).
    assert (cmp (Object_assign e el) e = 0) as Htie'.
    { apply (ord_key _ _ _ Hord); [done..|].
      unfold Object_assign. destruct (ord_has_key _ _ _ Hord el Hel) as [v Hv].
      rewrite (lookup_union_Some_l _ _ _ _ Hv). rewrite <- Hv.
      by apply (ord_key _ _ _ Hord). }
    exists true, (<[i := Object_assign e el]> els),
      (after_mutation this (<[i := Object_assign e el]> els) w).
    split; [done|]. split; [by eapply elements_of_after_mutation|].
    split; [by eapply sorted_replace|].
    split; [by apply Forall_insert|].
    split; [done|]. intros _. exists i, e. done.
  - destruct (Hsplit eq_refl) as [Hlo Hhi].
    exists false, els, w. do 4 (split; [done|]). split; [|done].
    intros _. do 2 (split; [done|]). by eapply no_tie_of_split.
Qed.

Lemma remove_sorted (els : list (gmap string value)) el w :
  elements_of this w = Some els ->
  sorted cmp els -> Forall dom els -> dom el ->
  exists (b : bool) els' w',
    remove this el w = (Normal b, w') /\
    elements_of this w' = Some els' /\
    sorted cmp els' /\ Forall dom els' /\
    (b = false -> w' = w /\ els' = els /\ forall e, e ∈ els -> cmp el e <> 0) /\
    (b = true ->
       exists (i : nat) e, els !! i = Some e /\ cmp el e = 0 /\
         els' = splice_remove els i /\ w' = after_mutation this els' w).
Proof.
  intros Hels Hs Hdom Hel.
  destruct (search_sorted cmp _ dom Hord els el Hs Hdom Hel)
    as (i & found & Hsearch & Hi & Hfound & Hsplit).
  pose proof (remove_eq this el w els _ _ (dom_Reflect_has el Hel) Hels Hsearch)
    as Hrem.
  rewrite Nat2Z.id in Hrem. destruct found.
  - destruct (Hfound eq_refl) as (e & He & Htie).
    exists true, (splice_remove els i), (after_mutation this (splice_remove els i) w).
    split; [done|]. split; [by eapply elements_of_after_mutation|].
    split; [by eapply sorted_splice_remove|].
    split; [by apply splice_remove_Forall|].
    split; [done|]. intros _. exists i, e. done.
  - destruct (Hsplit eq_refl) as [Hlo Hhi].
    exists false, els, w. do 4 (split; [done|]). split; [|done].
    intros _. do 2 (split; [done|]). by eapply no_tie_of_split.
Qed.

Lemma find_sorted (els : list (gmap string value)) el w :
  elements_of this w = Some els ->
  sorted cmp els -> Forall dom els -> dom el ->
  exists o,
    find this el w = (Normal o, w) /\
    (forall e, o = Some e -> e ∈ els /\ cmp el e = 0) /\
    (o = None -> forall e, e ∈ els -> cmp el e <> 0).
Proof.
  intros Hels Hs Hdom Hel.
  destruct (search_sorted cmp _ dom Hord els el Hs Hdom Hel)
    as (i & found & Hsearch & Hi & Hfound & Hsplit).
  pose proof (find_eq this el w els _ _ (dom_Reflect_has el Hel) Hels Hsearch)
    as Hfind.
  rewrite Nat2Z.id in Hfind. destruct found.
  - destruct (Hfound eq_refl) as (e & He & Htie). rewrite He in Hfind.
    exists (Some e). split; [done|]. split; [|done].
    intros ? [= <-]. split; [|done]. apply list_elem_of_lookup. eauto.
  - destruct (Hsplit eq_refl) as [Hlo Hhi].
    exists None. split; [done|]. split; [done|].
    intros _. by eapply no_tie_of_split.
Qed.
End Methods.

Section RemoveAll.
Context (this : Collection) (dom : gmap string value -> Prop).
Hypothesis Hord : ordering (comparator this) (primaryKey this) dom.

Local Abbreviation cmp := (comparator this).

Lemma this_elements_eq w (els : list (gmap string value)) :
  elements_of this w = Some els -> this_elements this w = (Normal els, w).
Proof. unfold elements_of, this_elements. by intros ->. Qed.

(** The loop ends and keeps the array sorted, together with any property
    [Inv] of the array that removing a selected record preserves. *)
Lemma removeAll_loop_sorted (Inv : list (gmap string value) -> Prop) cond :
  (forall (els : list (gmap string value)) el (i : nat) e,
      sorted cmp els -> Forall dom els -> Inv els ->
      el ∈ els -> selected cond el ->
      els !! i = Some e -> cmp el e = 0 -> Inv (splice_remove els i)) ->
  forall fuel (i : nat) n (els : list (gmap string value)) w,
    elements_of this w = Some els ->
    sorted cmp els -> Forall dom els -> Inv els ->
    (length els - i < fuel)%nat ->
    exists n' els' w',
      removeAll_loop fuel this cond i n w = (Normal n', w') /\
      elements_of this w' = Some els' /\
      sorted cmp els' /\ Forall dom els' /\ Inv els'.
Proof.
  intros HInv.
  induction fuel as [|fuel IH]; intros i n els w Hels Hs Hdom Hinv Hfuel; [lia|].
  simpl. unfold bind at 1. rewrite (this_elements_eq w els Hels).
  destruct (els !! i) as [el|] eqn:Hi.
  - assert (el ∈ els) as Hin by (apply list_elem_of_lookup; eauto).
    assert (dom el) as Hel by (eapply Forall_lookup_1; eauto).
    pose proof (lookup_lt_Some _ _ _ Hi) as Hlt.
    destruct (remove_sorted this dom Hord els el w Hels Hs Hdom Hel)
      as (b & els' & w' & Hrem & Hels' & Hs' & Hdom' & Hfalse & Htrue).
    assert (Hstep : selected cond el -> forall m,
      exists n' els'' w'',
        (_ <- not_awaited (remove this el) ;;
         removeAll_loop fuel this cond (S i) m) w = (Normal n', w'') /\
        elements_of this w'' = Some els'' /\
        sorted cmp els'' /\ Forall dom els'' /\ Inv els'').
    { intros Hsel m. unfold bind, not_awaited. rewrite Hrem.
      destruct b.
      - destruct (Htrue eq_refl) as (k & e & Hk & Htie & -> & _).
        pose proof (lookup_lt_Some _ _ _ Hk) as Hklt.
        apply (IH (S i) m (splice_remove els k)); [done..|by eapply HInv|].
        rewrite splice_remove_length by done. lia.
      - destruct (Hfalse eq_refl) as (-> & -> & _).
        apply (IH (S i) m els); [done..|lia]. }
    destruct cond as [c|].
    + destruct (c el) eqn:Hc.
      * by apply Hstep.
      * apply (IH (S i) n els); [done..|lia].
    + by apply Hstep.
  - exists n, els, w. done.
Qed.
End RemoveAll.

(** * The constructor and the default ordering *)

(** While the constructor sorts, [this.primaryKey] is still undefined: the
    default comparator reads the property named "undefined" of both
    records and, where no record has one, answers 0 for every pair. *)
Lemma defaultComparator_unassigned a b :
  a !! "undefined"%string = None -> b !! "undefined"%string = None ->
  defaultComparator None a b = 0.
Proof.
  intros Ha Hb. unfold defaultComparator, get, js_gt. simpl.
  by rewrite Ha, Hb.
Qed.

Lemma sort_insert_tie cmp x l :
  Forall (fun y => cmp x y = 0) l -> sort_insert cmp x l = x :: l.
Proof. intros Hl. destruct Hl as [|y l Hy _]; simpl; [done|]. by rewrite Hy. Qed.

(** So with no comparator supplied the constructor leaves the sequence in
    the order it was given. *)
Lemma constructor_default_keeps_order (els : list (gmap string value)) :
  Forall (fun a => a !! "undefined"%string = None) els ->
  Array_sort (defaultComparator None) els = els.
Proof.
  induction 1 as [|x l Hx Hl IH]; simpl; [done|].
  rewrite IH. apply sort_insert_tie.
  eapply Forall_impl; [exact Hl|].
  intros y Hy. by apply defaultComparator_unassigned.
Qed.

(** A sorted sequence is what sorting it from scratch gives. *)
Lemma Array_sort_sorted cmp (els : list (gmap string value)) :
  sorted cmp els -> Array_sort cmp els = els.
Proof.
  induction els as [|x l IH]; intros Hs; simpl; [done|].
  rewrite IH.
  - destruct l as [|y l']; simpl; [done|].
    pose proof (Hs 0%nat 1%nat x y ltac:(lia) eq_refl eq_refl) as Hxy.
    apply Z.leb_le in Hxy. by rewrite Hxy.
  - intros i j a b Hij Ha Hb. apply (Hs (S i) (S j)); [lia|done..].
Qed.

(** C2. With no comparator supplied, the sequence [{id: 2}, {id: 1}] is
    still in that order once the collection is constructed, whereas sorted
    by less-than on the key field it reads [{id: 1}, {id: 2}]. *)
Theorem constructor_default_not_sorted :
  fst (construct_then_iterate (users_world [user 2; user 1]))
    = Normal ([user 2; user 1], [user 1; user 2]).
Proof. vm_compute. reflexivity. Qed.

(** C1. A collection with the default ordering constructed on
    [{id: 2}, {id: 1}], then [insert({id: 3})]: the iteration order is
    [{id: 2}, {id: 1}, {id: 3}], and sorting the records from scratch
    gives [{id: 1}, {id: 2}, {id: 3}]. *)
Theorem iteration_order_not_sorted :
  fst (insert_then_iterate (user 3) (users_world [user 2; user 1]))
    = Normal ([user 2; user 1; user 3], [user 1; user 2; user 3]).
Proof. vm_compute. reflexivity. Qed.

(** C3. [removeAll()] on a collection of the three records of ids 1, 2, 3
    returns 2 and leaves the record of id 2: the loop walks the array that
    [remove] is splicing, and skips the record that slid into the freed
    index. *)
Theorem removeAll_skips_records :
  fst (removeAll_then_iterate (users_world [user 1; user 2; user 3]))
    = Normal (2, [user 2]).
Proof. vm_compute. reflexivity. Qed.

(** C4. On the collection with the default ordering constructed on
    [{id: 2}, {id: 1}], [insert({id: 1})] returns true and stores a second
    record of key 1. *)
Theorem insert_existing_key_inserts :
  fst (insert_then_find (user 1) (users_world [user 2; user 1]))
    = Normal (true, Some (user 1), [user 1; user 2; user 1]).
Proof. vm_compute. reflexivity. Qed.

(** C5. On the collection with the default ordering constructed on the
    records of ids 10, 1, 20, 30, 40, [insert({id: 5})] returns true and
    [find({id: 5})] right after it returns undefined. *)
Theorem find_misses_inserted_record :
  fst (insert_then_find (user 5)
         (users_world [user 10; user 1; user 20; user 30; user 40]))
    = Normal (true, None,
              [user 5; user 10; user 1; user 20; user 30; user 40]).
Proof. vm_compute. reflexivity. Qed.

(** * Mutations on a sorted array *)

Section Mutations.
Context (this : Collection) (dom : gmap string value -> Prop).
Hypothesis Hord : ordering (comparator this) (primaryKey this) dom.

Local Abbreviation cmp := (comparator this).

Lemma removeAll_sorted cond (els : list (gmap string value)) w :
  elements_of this w = Some els ->
  sorted cmp els -> Forall dom els ->
  exists n els' w',
    removeAll this cond w = (Normal n, w') /\
    elements_of this w' = Some els' /\
    sorted cmp els' /\ Forall dom els'.
Proof.
  intros Hels Hs Hdom. unfold removeAll, bind.
  rewrite (this_elements_eq this w els Hels).
  destruct (removeAll_loop_sorted this dom Hord (fun _ => True) cond
              ltac:(done) (S (length els)) 0%nat 0 els w)
    as (n & els' & w' & Hrun & Hels' & Hs' & Hdom' & _); [done..|lia|].
  exists n, els', w'. done.
Qed.

Lemma perform_sorted op (els : list (gmap string value)) w :
  on_dom dom op ->
  elements_of this w = Some els ->
  sorted cmp els -> Forall dom els ->
  exists els' w',
    perform this op w = (Normal tt, w') /\
    elements_of this w' = Some els' /\
    sorted cmp els' /\ Forall dom els'.
Proof.
  intros Hop Hels Hs Hdom.
  destruct op as [el|el|el|cond]; simpl in *; unfold not_awaited.
  - destruct (insert_sorted this dom Hord els el w Hels Hs Hdom Hop)
      as (b & els' & w' & -> & ? & ? & ? & _). by exists els', w'.
  - destruct (update_sorted this dom Hord els el w Hels Hs Hdom Hop)
      as (b & els' & w' & -> & ? & ? & ? & _). by exists els', w'.
  - destruct (remove_sorted this dom Hord els el w Hels Hs Hdom Hop)
      as (b & els' & w' & -> & ? & ? & ? & _). by exists els', w'.
  - destruct (removeAll_sorted cond els w Hels Hs Hdom)
      as (n & els' & w' & -> & ? & ? & ?). by exists els', w'.
Qed.

(** X23. From an array sorted by an ordering, every sequence of [insert],
    [update], [remove] and [removeAll] runs to its end and leaves the array
    such that sorting it from scratch changes nothing. *)
Lemma mutations_keep_sorted ops (els : list (gmap string value)) w :
  Forall (on_dom dom) ops ->
  elements_of this w = Some els ->
  sorted cmp els -> Forall dom els ->
  exists els' w',
    run this ops w = (Normal tt, w') /\
    iterate this w' = (Normal els', w') /\
    Array_sort cmp els' = els'.
Proof.
  intros Hops. revert els w.
  induction Hops as [|op ops Hop _ IH]; intros els w Hels Hs Hdom; simpl.
  - exists els, w. split; [done|].
    split; [by apply this_elements_eq|by apply Array_sort_sorted].
  - destruct (perform_sorted op els w Hop Hels Hs Hdom)
      as (els1 & w1 & Hperf & Hels1 & Hs1 & Hdom1).
    unfold bind. rewrite Hperf. by apply (IH els1).
Qed.
End Mutations.

(** * The default ordering once the collection is constructed *)

Lemma numbers_total : total_order_on is_number.
Proof.
  intros a b [x ->] [y ->]. unfold js_gt. simpl.
  intros Hxy%Z.ltb_ge Hyx%Z.ltb_ge. f_equal. lia.
Qed.

Lemma strings_total : total_order_on is_string.
Proof.
  intros a b [s ->] [t ->]. unfold js_gt. simpl. unfold String.ltb.
  rewrite (String.compare_antisym t s).
  destruct (String.compare s t) eqn:Hc; simpl; try discriminate.
  intros _ _. f_equal. by apply String.compare_eq_iff.
Qed.

Lemma defaultComparator_numbers pk a b x y :
  a !! pk = Some (VNum x) -> b !! pk = Some (VNum y) ->
  defaultComparator (Some pk) a b =
    if x <? y then -1 else if y <? x then 1 else 0.
Proof.
  intros Ha Hb. unfold defaultComparator, get, js_gt. simpl.
  by rewrite Ha, Hb.
Qed.

Lemma Object_assign_key e el pk :
  is_Some (el !! pk) -> Object_assign e el !! pk = el !! pk.
Proof.
  intros [v Hv]. unfold Object_assign.
  by rewrite (lookup_union_Some_l _ _ _ _ Hv).
Qed.

(** On records with a number under the key field, the default comparator
    is an ordering in the sense of the data model. *)
Lemma default_ordering pk :
  ordering (defaultComparator (Some pk)) pk (number_key pk).
Proof.
  split.
  - intros a b [x Ha] [y Hb].
    rewrite (defaultComparator_numbers pk a b x y Ha Hb).
    rewrite (defaultComparator_numbers pk b a y x Hb Ha).
    destruct (x <? y) eqn:Hxy; destruct (y <? x) eqn:Hyx;
      try apply Z.ltb_lt in Hxy; try apply Z.ltb_lt in Hyx; lia.
  - intros a b c [x Ha] [y Hb] [z Hc].
    rewrite (defaultComparator_numbers pk a b x y Ha Hb).
    rewrite (defaultComparator_numbers pk b c y z Hb Hc).
    rewrite (defaultComparator_numbers pk a c x z Ha Hc).
    destruct (x <? y) eqn:Hxy; destruct (y <? x) eqn:Hyx;
      destruct (y <? z) eqn:Hyz; destruct (z <? y) eqn:Hzy;
      destruct (x <? z) eqn:Hxz; destruct (z <? x) eqn:Hzx;
      try apply Z.ltb_lt in Hxy; try apply Z.ltb_lt in Hyx;
      try apply Z.ltb_lt in Hyz; try apply Z.ltb_lt in Hzy;
      try apply Z.ltb_lt in Hxz; try apply Z.ltb_lt in Hzx;
      try apply Z.ltb_ge in Hxy; try apply Z.ltb_ge in Hyx;
      try apply Z.ltb_ge in Hyz; try apply Z.ltb_ge in Hzy;
      try apply Z.ltb_ge in Hxz; try apply Z.ltb_ge in Hzx; lia.
  - intros a [x Ha]. by exists (VNum x).
  - intros a b [x Ha] [y Hb].
    rewrite (defaultComparator_numbers pk a b x y Ha Hb), Ha, Hb.
    destruct (x <? y) eqn:Hxy; destruct (y <? x) eqn:Hyx;
      try apply Z.ltb_lt in Hxy; try apply Z.ltb_lt in Hyx;
      try apply Z.ltb_ge in Hxy; try apply Z.ltb_ge in Hyx;
      split; intros H; simplify_eq; try lia.
    f_equal. f_equal. lia.
  - intros e el _ [x Hel] _. exists x.
    rewrite Object_assign_key by eauto. done.
Qed.

(** * An update under the default ordering *)

(** C10. Under the default comparator, on key values that [<] and [>]
    order totally, a successful update merges into a record whose key
    field already holds the key of the update: the key field of the stored
    record is unchanged, the record stays at its index, and it compares
    with every record as it did before. *)
Theorem update_keeps_key this (P : value -> Prop)
    (els : list (gmap string value)) el w w' :
  comparator this = defaultComparator (Some (primaryKey this)) ->
  total_order_on P ->
  elements_of this w = Some els ->
  Forall (fun e => P (get e (Some (primaryKey this)))) els ->
  P (get el (Some (primaryKey this))) ->
  update this el w = (Normal true, w') ->
  exists (i : nat) e,
    els !! i = Some e /\
    elements_of this w' = Some (<[i := Object_assign e el]> els) /\
    get (Object_assign e el) (Some (primaryKey this))
      = get e (Some (primaryKey this)) /\
    forall x,
      comparator this (Object_assign e el) x = comparator this e x /\
      comparator this x (Object_assign e el) = comparator this x e.
Proof.
  intros Hcmp Htotal Hels HP HPel Hupd.
  destruct (Reflect_has el (primaryKey this)) eqn:Hhas.
  2:{ unfold update in Hupd. rewrite Hhas in Hupd. discriminate. }
  destruct (search_loop_total (S (length els)) (comparator this) els el
              0 (Z.of_nat (length els) - 1)) as [[i found] Hsearch]; [lia..|].
  rewrite (update_eq this el w els i found Hhas Hels Hsearch) in Hupd.
  destruct found; [|discriminate].
  destruct (search_loop_found _ _ _ _ 0 _ _ ltac:(lia) Hsearch)
    as (Hi & e & He & Htie).
  rewrite He in Hupd. injection Hupd as <-.
  assert (get el (Some (primaryKey this)) = get e (Some (primaryKey this)))
    as Hkey.
  { apply Htotal; [done|by eapply (Forall_lookup_1 _ _ _ _ HP)|..];
      rewrite Hcmp in Htie; unfold defaultComparator in Htie;
      destruct (js_lt _ _); try discriminate;
      destruct (js_gt _ _); try discriminate; done. }
  assert (get (Object_assign e el) (Some (primaryKey this))
          = get e (Some (primaryKey this))) as Hkey'.
  { rewrite <- Hkey. unfold get. simpl. f_equal.
    apply Object_assign_key. unfold Reflect_has in Hhas.
    by apply bool_decide_eq_true in Hhas. }
  exists (Z.to_nat i), e. split; [done|].
  split; [by eapply elements_of_after_mutation|]. split; [done|].
  intros x. rewrite Hcmp. unfold defaultComparator, js_gt.
  by rewrite Hkey'.
Qed.

Lemma update_keeps_key_witness :
  exists (i : nat) e,
    [user 1; user 2] !! i = Some e /\
    elements_of (users_collection None)
      (after_mutation (users_collection None) [user 1; named 2 "b"]
         (users_world [user 1; user 2]))
      = Some (<[i := Object_assign e (named 2 "b")]> [user 1; user 2]) /\
    get (Object_assign e (named 2 "b")) (Some "id"%string)
      = get e (Some "id"%string) /\
    forall x,
      comparator (users_collection None) (Object_assign e (named 2 "b")) x
        = comparator (users_collection None) e x /\
      comparator (users_collection None) x (Object_assign e (named 2 "b"))
        = comparator (users_collection None) x e.
Proof.
  apply (update_keeps_key (users_collection None) is_number
           [user 1; user 2] (named 2 "b") (users_world [user 1; user 2])).
  - reflexivity.
  - exact numbers_total.
  - reflexivity.
  - repeat constructor; eexists; vm_compute; reflexivity.
  - eexists; vm_compute; reflexivity.
  - vm_compute. reflexivity.
Defined.

(** Sorting keeps the records. *)
Lemma sort_insert_Permutation cmp x (l : list (gmap string value)) :
  sort_insert cmp x l ≡ₚ x :: l.
Proof.
  induction l as [|y l IH]; simpl; [done|].
  destruct (cmp x y <=? 0); [done|].
  rewrite IH. apply Permutation_swap.
Qed.

Lemma Array_sort_Permutation cmp (l : list (gmap string value)) :
  Array_sort cmp l ≡ₚ l.
Proof.
  induction l as [|x l IH]; simpl; [done|].
  by rewrite sort_insert_Permutation, IH.
Qed.

(** * A call without the key field *)

(** [update] called with a record that has no key field does not throw:
    the call returns a promise, rejected with the TypeError. *)
Lemma update_without_key_returns_promise :
  fst (call_update (users_collection None) {[ "name"%string := VStr "Si Li" ]}
         (users_world [user 1; user 2]))
    = Normal (Rejected
                (TypeError "cannot update an element without the primary key")) /\
  forall e,
    fst (call_update (users_collection None) {[ "name"%string := VStr "Si Li" ]}
           (users_world [user 1; user 2])) <> Throw e.
Proof.
  assert (fst (call_update (users_collection None)
                 {[ "name"%string := VStr "Si Li" ]}
                 (users_world [user 1; user 2]))
          = Normal (Rejected
                      (TypeError "cannot update an element without the primary key")))
    as Hcall.
  { unfold call_update, async, update.
    replace (Reflect_has {[ "name"%string := VStr "Si Li" ]}
               (primaryKey (users_collection None))) with false
      by (vm_compute; reflexivity).
    reflexivity. }
  split; [done|]. intros e. rewrite Hcall. discriminate.
Qed.

(** C6, as the code has it.  When the argument lacks the key field, and
    the key field is not a name every object inherits from
    [Object.prototype], so that [Reflect.has] finds it nowhere: [find]
    throws a TypeError to its caller; [update] and [remove], which are
    [async], return a promise that is rejected with a TypeError; and in
    the three cases the world is left as it was: the array is not touched
    and [save] is not called. *)
Theorem missing_key_throws this el w :
  Reflect_has el (primaryKey this) = false ->
  inherited (primaryKey this) = false ->
  find this el w
    = (Throw (TypeError "cannot find the index without the primary key"), w) /\
  call_update this el w
    = (Normal (Rejected
                 (TypeError "cannot update an element without the primary key")),
       w) /\
  call_remove this el w
    = (Normal (Rejected
                 (TypeError "cannot find the index without the primary key")),
       w).
Proof.
  intros Hhas _. repeat split.
  - unfold find, bind. by rewrite (searchIndex_throws this el w Hhas).
  - unfold call_update, async, update. by rewrite Hhas.
  - unfold call_remove, async, remove, bind.
    by rewrite (searchIndex_throws this el w Hhas).
Qed.

Lemma missing_key_throws_witness :
  find (users_collection None) {[ "name"%string := VStr "Si Li" ]}
       (users_world [user 1; user 2])
    = (Throw (TypeError "cannot find the index without the primary key"),
       users_world [user 1; user 2]) /\
  call_update (users_collection None) {[ "name"%string := VStr "Si Li" ]}
       (users_world [user 1; user 2])
    = (Normal (Rejected
                 (TypeError "cannot update an element without the primary key")),
       users_world [user 1; user 2]) /\
  call_remove (users_collection None) {[ "name"%string := VStr "Si Li" ]}
       (users_world [user 1; user 2])
    = (Normal (Rejected
                 (TypeError "cannot find the index without the primary key")),
       users_world [user 1; user 2]).
Proof.
  apply (missing_key_throws (users_collection None)
           {[ "name"%string := VStr "Si Li" ]} (users_world [user 1; user 2])).
  - vm_compute. reflexivity.
  - vm_compute. reflexivity.
Defined.

(** * connect and the factory *)

Lemma new_Collection_eq options w (els : list (gmap string value)) :
  store w !! io_elements options = Some els ->
  new_Collection options w =
    (Normal (mkCollection
               (default (defaultComparator (Some (io_primaryKey options)))
                        (io_comparator options))
               (io_name options) (io_primaryKey options) (io_elements options)),
     mkWorld (data w)
       (<[io_elements options :=
            Array_sort (default (defaultComparator None) (io_comparator options))
                       els]> (store w))
       (saves w)).
Proof. unfold new_Collection. by intros ->. Qed.

(** The factory on a name bound to an array. *)
Lemma database_existing options w l (els : list (gmap string value)) :
  data w !! co_name options = Some (PArray l) ->
  store w !! l = Some els ->
  exists c w',
    database options w = (Normal c, w') /\
    elements c = l /\ name c = co_name options /\
    primaryKey c = co_primaryKey options /\
    comparator c = default (defaultComparator (Some (co_primaryKey options)))
                           (co_comparator options) /\
    data w' = data w /\
    elements_of c w'
      = Some (Array_sort (default (defaultComparator None) (co_comparator options))
                         els).
Proof.
  intros Hdata Hstore. unfold database, bind, get_or_create.
  rewrite Hdata. simpl.
  rewrite (new_Collection_eq _ w els) by done.
  eexists _, _. split; [done|]. simpl. repeat split.
  unfold elements_of. simpl.
  apply list_lookup_insert_eq. by eapply lookup_lt_Some.
Qed.

(** The factory on a name under which nothing is found, or bound to a
    falsy value. *)
Lemma database_fresh options w :
  ((data w !! co_name options = None /\ inherited (co_name options) = false) \/
   exists p, data w !! co_name options = Some p /\ truthy p = false) ->
  exists c w',
    database options w = (Normal c, w') /\
    elements c = length (store w) /\
    data w' !! co_name options = Some (PArray (length (store w))) /\
    elements_of c w' = Some [].
Proof.
  intros Hdata. unfold database, bind, get_or_create.
  assert (Hnew : forall w0 : World,
    store w0 = store w ++ [[]] ->
    store w0 !! length (store w) = Some []).
  { intros w0 ->. rewrite lookup_app_r by lia. by rewrite Nat.sub_diag. }
  destruct Hdata as [[-> ->]|(p & -> & ->)].
  - erewrite new_Collection_eq by (by apply Hnew).
    eexists _, _. split; [done|]. simpl. split; [done|].
    split; [by rewrite lookup_insert_eq|].
    unfold elements_of. simpl. apply list_lookup_insert_eq.
    rewrite length_app. simpl. lia.
  - erewrite new_Collection_eq by (by apply Hnew).
    eexists _, _. split; [done|]. simpl. split; [done|].
    split; [by rewrite lookup_insert_eq|].
    unfold elements_of. simpl. apply list_lookup_insert_eq.
    rewrite length_app. simpl. lia.
Qed.

(** The factory on a name bound to a truthy value that is not an array. *)
Lemma database_throws options w p :
  data w !! co_name options = Some p ->
  truthy p = true -> (forall l, p <> PArray l) ->
  database options w = (Throw (not_an_array (co_name options)), w).
Proof.
  intros Hdata Htruthy Hnot. unfold database, bind, get_or_create.
  rewrite Hdata, Htruthy.
  destruct p as [l| | | | |]; try done. by destruct (Hnot l).
Qed.

(** The factory on a name the root object only inherits, such as
    "toString" on the root object [{}]. *)
Lemma database_throws_inherited options w :
  data w !! co_name options = None ->
  inherited (co_name options) = true ->
  database options w = (Throw (not_an_array (co_name options)), w).
Proof.
  intros Hdata Hinh. unfold database, bind, get_or_create.
  by rewrite Hdata, Hinh.
Qed.

(** The factory on the root object [{"users": null}] does not throw,
    although the value present under the name is not an array. *)
Lemma null_is_replaced :
  data (mkWorld {[ "users"%string := PNull ]} [] []) !! "users"%string
    = Some PNull /\
  (forall l, PNull <> PArray l) /\
  forall e,
    fst (database (users_options None)
           (mkWorld {[ "users"%string := PNull ]} [] [])) <> Throw e.
Proof.
  split; [reflexivity|]. split; [discriminate|].
  intros e H.
  destruct (database_fresh (users_options None)
              (mkWorld {[ "users"%string := PNull ]} [] []))
    as (c & w' & Hrun & _).
  { right. exists PNull. split; reflexivity. }
  rewrite Hrun in H. discriminate.
Qed.

(** C7, as the code has it, on a root object whose arrays hold objects.
    An empty array is created and stored when nothing is found under the
    name, neither an own property nor a member inherited from
    [Object.prototype], or when the name is bound to a falsy value (null,
    false, 0, the empty string); an array bound to the name is the one the
    collection wraps; and the factory throws its TypeError, that the
    property is not an array, exactly when the value found under the
    name, own or inherited, is truthy and not an array. *)
Theorem factory_array_or_TypeError options w :
  (((data w !! co_name options = None /\ inherited (co_name options) = false) \/
    exists p, data w !! co_name options = Some p /\ truthy p = false) ->
   exists c w',
     database options w = (Normal c, w') /\
     elements c = length (store w) /\
     data w' !! co_name options = Some (PArray (length (store w))) /\
     elements_of c w' = Some []) /\
  (forall l (els : list (gmap string value)),
     data w !! co_name options = Some (PArray l) ->
     store w !! l = Some els ->
     exists c w',
       database options w = (Normal c, w') /\ elements c = l /\
       data w' = data w) /\
  (fst (database options w) = Throw (not_an_array (co_name options)) <->
   (exists p, data w !! co_name options = Some p /\
      truthy p = true /\ forall l, p <> PArray l) \/
   (data w !! co_name options = None /\ inherited (co_name options) = true)).
Proof.
  split; [apply database_fresh|]. split.
  - intros l els Hdata Hstore.
    destruct (database_existing options w l els Hdata Hstore)
      as (c & w' & H1 & H2 & _ & _ & _ & H3 & _).
    by exists c, w'.
  - split.
    + intros Hthrow.
      destruct (data w !! co_name options) as [p|] eqn:Hdata.
      * destruct (truthy p) eqn:Htruthy.
        -- destruct (decide (exists l, p = PArray l)) as [[l ->]|Hnot].
           ++ unfold database, bind, get_or_create in Hthrow.
              rewrite Hdata in Hthrow. simpl in Hthrow.
              unfold new_Collection in Hthrow. simpl in Hthrow.
              destruct (store w !! l); discriminate.
           ++ left. exists p. do 2 (split; [done|]). intros l ->. eauto.
        -- destruct (database_fresh options w) as (c & w' & Hrun & _);
             [right; eauto|].
           rewrite Hrun in Hthrow. discriminate.
      * destruct (inherited (co_name options)) eqn:Hinh; [by right|].
        destruct (database_fresh options w) as (c & w' & Hrun & _);
          [by left|].
        rewrite Hrun in Hthrow. discriminate.
    + intros [(p & Hdata & Htruthy & Hnot)|[Hdata Hinh]].
      * by rewrite (database_throws options w p Hdata Htruthy Hnot).
      * by rewrite (database_throws_inherited options w Hdata Hinh).
Qed.

(** C8.  With the file given as a path, [connect] reads through
    [createFile], whose [read] is [async]: [JSON.parse] is handed a
    promise, whose string form is no JSON, so whatever the file holds the
    root object is [init]; and when the file is absent the promise is
    rejected outside the [try], with nothing to handle the rejection. *)
Theorem connect_leaves_read_rejection_unhandled
    readFile JSON_parse path init0 :
  JSON_parse "[object Promise]"%string = None ->
  connect readFile JSON_parse (mkDatabaseOptions (FilePath path) init0)
    = Normal (mkConnection
                (ParsedObject (default (mkJSONData ∅ []) init0))
                (match readFile path with
                 | Throw e => [e]
                 | _ => []
                 end)).
Proof.
  intros Hparse. unfold connect, createFile. simpl. rewrite Hparse. simpl.
  by destruct (readFile path).
Qed.

Lemma connect_leaves_read_rejection_unhandled_witness :
  rejects_all "[object Promise]"%string = None /\
  connect no_file rejects_all
    (mkDatabaseOptions (FilePath "./db.json")
       (Some (mkJSONData {[ "users"%string := PArray 0 ]} [[user 1]])))
    = Normal (mkConnection
                (ParsedObject
                   (mkJSONData {[ "users"%string := PArray 0 ]} [[user 1]]))
                [SystemError "ENOENT"]).
Proof.
  split; [reflexivity|].
  exact (connect_leaves_read_rejection_unhandled no_file rejects_all "./db.json"
           (Some (mkJSONData {[ "users"%string := PArray 0 ]} [[user 1]]))
           eq_refl).
Defined.

(** X25. With an adapter whose [read] throws to its caller, or returns a
    text that does not parse, [connect] returns normally with [init] as
    the root object and leaves no rejection unhandled; and a collection
    created for a name that [init] binds to an array holds exactly the
    records of that array. *)
Theorem connect_falls_back_to_init readFile JSON_parse f init0 :
  (forall v, read f = Normal v ->
     exists text, v = RString text /\ JSON_parse text = None) ->
  connect readFile JSON_parse (mkDatabaseOptions (FileAdapter f) init0)
    = Normal (mkConnection (ParsedObject (default (mkJSONData ∅ []) init0)) []) /\
  forall name0 pk cmp l (els : list (gmap string value)),
    root (default (mkJSONData ∅ []) init0) !! name0 = Some (PArray l) ->
    arrays (default (mkJSONData ∅ []) init0) !! l = Some els ->
    exists c w' els',
      database (mkCollectionOptions name0 pk cmp)
        (world_of (default (mkJSONData ∅ []) init0)) = (Normal c, w') /\
      elements_of c w' = Some els' /\ els' ≡ₚ els.
Proof.
  intros Hfail. split.
  - unfold connect. simpl.
    destruct (read f) as [v| |] eqn:Hread; [|done..].
    destruct (Hfail v eq_refl) as (text & -> & Hparse). simpl.
    by rewrite Hparse.
  - intros name0 pk cmp l els Hroot Harr.
    destruct (database_existing (mkCollectionOptions name0 pk cmp)
                (world_of (default (mkJSONData ∅ []) init0)) l els Hroot Harr)
      as (c & w' & H1 & _ & _ & _ & _ & _ & H2).
    eexists c, w', _. split; [done|]. split; [done|].
    apply Array_sort_Permutation.
Qed.

Lemma connect_falls_back_to_init_witness :
  connect no_file rejects_all
    (mkDatabaseOptions (FileAdapter (mkDatabaseFile (Throw (SystemError "ENOENT"))))
       (Some (mkJSONData {[ "users"%string := PArray 0 ]} [[user 1]])))
    = Normal (mkConnection
                (ParsedObject
                   (default (mkJSONData ∅ [])
                      (Some (mkJSONData {[ "users"%string := PArray 0 ]}
                               [[user 1]]))))
                []) /\
  forall name0 pk cmp l (els : list (gmap string value)),
    root (default (mkJSONData ∅ [])
            (Some (mkJSONData {[ "users"%string := PArray 0 ]} [[user 1]])))
      !! name0 = Some (PArray l) ->
    arrays (default (mkJSONData ∅ [])
              (Some (mkJSONData {[ "users"%string := PArray 0 ]} [[user 1]])))
      !! l = Some els ->
    exists c w' els',
      database (mkCollectionOptions name0 pk cmp)
        (world_of
           (default (mkJSONData ∅ [])
              (Some (mkJSONData {[ "users"%string := PArray 0 ]} [[user 1]]))))
        = (Normal c, w') /\
      elements_of c w' = Some els' /\ els' ≡ₚ els.
Proof.
  apply (connect_falls_back_to_init no_file rejects_all
           (mkDatabaseFile (Throw (SystemError "ENOENT")))
           (Some (mkJSONData {[ "users"%string := PArray 0 ]} [[user 1]]))).
  intros v H. discriminate H.
Defined.

(** * Two collections on one array *)

Lemma elem_of_splice_insert {A} (l : list A) (i : nat) (x y : A) :
  y ∈ splice_insert l i x <-> y = x \/ y ∈ l.
Proof.
  unfold splice_insert. rewrite elem_of_app, elem_of_cons.
  assert (y ∈ l <-> y ∈ take i l \/ y ∈ drop i l) as ->.
  { rewrite <- elem_of_app. by rewrite take_drop. }
  tauto.
Qed.

(** Two factory calls for one name wrap the same array. *)
Lemma database_twice_shares options1 options2 w first w1 second w2 :
  co_name options1 = co_name options2 ->
  database options1 w = (Normal first, w1) ->
  database options2 w1 = (Normal second, w2) ->
  elements first = elements second.
Proof.
  intros Hname H1 H2.
  assert (exists els, data w1 !! co_name options1 = Some (PArray (elements first))
                      /\ store w1 !! elements first = Some els) as (els & Hd & Hs).
  { destruct (data w !! co_name options1) as [p|] eqn:Hdata.
    - destruct (truthy p) eqn:Htruthy.
      + destruct (decide (exists l, p = PArray l)) as [[l ->]|Hnot].
        * unfold database, bind, get_or_create in H1.
          rewrite Hdata in H1. simpl in H1. unfold new_Collection in H1.
          simpl in H1. destruct (store w !! l) as [els|] eqn:Hstore; [|done].
          injection H1 as <- <-. simpl. eexists. split; [done|].
          apply list_lookup_insert_eq. by eapply lookup_lt_Some.
        * rewrite (database_throws options1 w p) in H1; [done..|].
          intros l ->. eauto.
      + destruct (database_fresh options1 w) as (c & w' & Hrun & He & Hd & Hs);
          [right; eauto|].
        rewrite Hrun in H1. injection H1 as <- <-.
        unfold elements_of in Hs. rewrite He in *. eauto.
    - destruct (inherited (co_name options1)) eqn:Hinh.
      { by rewrite (database_throws_inherited options1 w Hdata Hinh) in H1. }
      destruct (database_fresh options1 w) as (c & w' & Hrun & He & Hd & Hs);
        [by left|].
      rewrite Hrun in H1. injection H1 as <- <-.
      unfold elements_of in Hs. rewrite He in *. eauto. }
  rewrite Hname in Hd.
  destruct (database_existing options2 w1 _ els Hd Hs)
    as (c & w' & Hrun & He & _).
  rewrite Hrun in H2. by injection H2 as <- <-.
Qed.

(** On an array sorted by an ordering, an insert through one collection
    is found through every collection on that array with the same
    comparator and key field, the inserting collection included. *)
Lemma find_after_insert first second (dom : gmap string value -> Prop)
    (els : list (gmap string value)) r w2 w3 :
  elements first = elements second ->
  comparator first = comparator second ->
  primaryKey first = primaryKey second ->
  ordering (comparator second) (primaryKey second) dom ->
  elements_of second w2 = Some els ->
  sorted (comparator second) els -> Forall dom els -> dom r ->
  insert first r w2 = (Normal true, w3) ->
  find second r w3 = (Normal (Some r), w3).
Proof.
  intros Hshare Hcmp Hpk Hord Hels Hs Hdom Hr Hins.
  assert (ordering (comparator first) (primaryKey first) dom) as Hord1
    by (by rewrite Hcmp, Hpk).
  assert (elements_of first w2 = Some els) as Hels1
    by (unfold elements_of in *; by rewrite Hshare).
  rewrite <- Hcmp in Hs.
  destruct (insert_sorted first dom Hord1 els r w2 Hels1 Hs Hdom Hr)
    as (b & els' & w' & Hins' & _ & Hs' & Hdom' & _ & Htrue).
  rewrite Hins' in Hins. injection Hins as -> <-.
  destruct (Htrue eq_refl) as (Hnotie & i & Hi & -> & ->).
  assert (elements_of second
            (after_mutation first (splice_insert els i r) w2)
          = Some (splice_insert els i r)) as Hels2
    by (by eapply elements_of_after_mutation).
  rewrite Hcmp in Hs', Hnotie.
  destruct (find_sorted second dom Hord _ r _ Hels2 Hs' Hdom' Hr)
    as (o & Hfind & Hsome & Hnone).
  rewrite Hfind. destruct o as [e|].
  - destruct (Hsome e eq_refl) as [[->|Hin]%elem_of_splice_insert Htie]; [done|].
    by destruct (Hnotie e Hin).
  - exfalso. apply (Hnone eq_refl r).
    + apply elem_of_splice_insert. by left.
    + by apply (cmp_refl _ _ dom Hord).
Qed.

(** On an array sorted by an ordering, inserting a record whose key-field
    value is already stored returns false and changes nothing. *)
Lemma insert_existing_key_sorted this (dom : gmap string value -> Prop)
    (els : list (gmap string value)) r w :
  ordering (comparator this) (primaryKey this) dom ->
  elements_of this w = Some els ->
  sorted (comparator this) els -> Forall dom els -> dom r ->
  (exists e, e ∈ els /\ e !! primaryKey this = r !! primaryKey this) ->
  insert this r w = (Normal false, w).
Proof.
  intros Hord Hels Hs Hdom Hr (e & Hin & Hkey).
  destruct (insert_sorted this dom Hord els r w Hels Hs Hdom Hr)
    as (b & els' & w' & Hins & _ & _ & _ & Hfalse & Htrue).
  destruct b.
  - destruct (Htrue eq_refl) as [Hnotie _]. destruct (Hnotie e Hin).
    apply (ord_key _ _ _ Hord); [done| |done].
    by eapply (proj1 (Forall_forall _ _) Hdom).
  - by destruct (Hfalse eq_refl) as (-> & _).
Qed.

(** An insert through [first], then a lookup through [second], which uses
    the comparator [(a, b) => b.id - a.id] where [first] uses
    [(a, b) => a.id - b.id]: the insert of [{id: 0}] returns true and the
    lookup returns undefined. *)
Lemma find_on_other_misses :
  fst (insert_then_find_other (Some ascending) (Some descending) (user 0)
         (users_world [user 1; user 2; user 3]))
    = Normal (true, None, [user 0; user 3; user 2; user 1]).
Proof. vm_compute. reflexivity. Qed.

(** C9, as the code has it.  Two collections obtained from one connection
    for one name wrap the same array; and when both use the same ordering
    and key field and the array is sorted by that ordering, a record
    inserted through the first is the record [find] returns on the
    second. *)
Theorem shared_array_insert_find options1 options2 w first w1 second w2 :
  co_name options1 = co_name options2 ->
  database options1 w = (Normal first, w1) ->
  database options2 w1 = (Normal second, w2) ->
  elements first = elements second /\
  forall (dom : gmap string value -> Prop) (els : list (gmap string value)) r w3,
    comparator first = comparator second ->
    primaryKey first = primaryKey second ->
    ordering (comparator second) (primaryKey second) dom ->
    elements_of second w2 = Some els ->
    sorted (comparator second) els -> Forall dom els -> dom r ->
    insert first r w2 = (Normal true, w3) ->
    find second r w3 = (Normal (Some r), w3).
Proof.
  intros Hname H1 H2.
  pose proof (database_twice_shares _ _ _ _ _ _ _ Hname H1 H2) as Hshare.
  split; [done|].
  intros dom els r w3 Hcmp Hpk Hord Hels Hs Hdom Hr Hins.
  by eapply find_after_insert.
Qed.

Lemma sorted_pair cmp a b : cmp a b <= 0 -> sorted cmp [a; b].
Proof.
  intros Hab i j x y Hij Hx Hy.
  destruct i as [|[|i]]; destruct j as [|[|j]]; simplify_eq/=; try lia; done.
Qed.

(** The factory with the default ordering, on a root object whose records
    have no property named "undefined". *)
Lemma users_database (els : list (gmap string value)) :
  Forall (fun a => a !! "undefined"%string = None) els ->
  database (users_options None) (users_world els)
    = (Normal (users_collection None), users_world els).
Proof.
  intros Hels. unfold database, bind, get_or_create, users_world. simpl.
  rewrite lookup_singleton_eq. simpl.
  unfold new_Collection. simpl.
  by rewrite (constructor_default_keeps_order els Hels).
Qed.

Lemma shared_array_insert_find_witness :
  find (users_collection None) (user 2)
    (after_mutation (users_collection None) [user 1; user 2; user 3]
       (users_world [user 1; user 3]))
  = (Normal (Some (user 2)),
     after_mutation (users_collection None) [user 1; user 2; user 3]
       (users_world [user 1; user 3])).
Proof.
  apply (proj2 (shared_array_insert_find
                  (users_options None) (users_options None)
                  (users_world [user 1; user 3])
                  (users_collection None) (users_world [user 1; user 3])
                  (users_collection None) (users_world [user 1; user 3])
                  eq_refl
                  (users_database [user 1; user 3]
                     ltac:(repeat constructor))
                  (users_database [user 1; user 3]
                     ltac:(repeat constructor)))
           (number_key "id") [user 1; user 3]).
  - reflexivity.
  - reflexivity.
  - apply default_ordering.
  - reflexivity.
  - apply sorted_pair. vm_compute. discriminate.
  - repeat constructor; eexists; vm_compute; reflexivity.
  - eexists. vm_compute. reflexivity.
  - vm_compute. reflexivity.
Defined.

(** * The constructor with a comparator of the caller *)

Lemma sorted_cons cmp x (l : list (gmap string value)) :
  sorted cmp (x :: l) <-> Forall (fun y => cmp x y <= 0) l /\ sorted cmp l.
Proof.
  split.
  - intros Hs. split.
    + apply Forall_lookup. intros i y Hy.
      apply (Hs 0%nat (S i)); [lia|done..].
    + intros i j a b Hij Ha Hb. apply (Hs (S i) (S j)); [lia|done..].
  - intros [Hx Hl] i j a b Hij Ha Hb.
    destruct j as [|j]; [lia|]. destruct i as [|i]; simpl in *.
    + simplify_eq. by eapply (Forall_lookup_1 _ _ _ _ Hx).
    + apply (Hl i j); [lia|done..].
Qed.

Lemma sort_insert_Forall (P : gmap string value -> Prop) cmp x l :
  P x -> Forall P l -> Forall P (sort_insert cmp x l).
Proof.
  intros Hx Hl. induction Hl as [|y l Hy Hl IH]; simpl.
  - by constructor.
  - destruct (cmp x y <=? 0); repeat constructor; done.
Qed.

Lemma Array_sort_Forall (P : gmap string value -> Prop) cmp l :
  Forall P l -> Forall P (Array_sort cmp l).
Proof.
  induction 1 as [|x l Hx Hl IH]; simpl; [done|].
  by apply sort_insert_Forall.
Qed.

Section SortResult.
Context (cmp : Comparator) (pk : string) (dom : gmap string value -> Prop).
Hypothesis Hord : ordering cmp pk dom.

Lemma sort_insert_sorted x (l : list (gmap string value)) :
  dom x -> Forall dom l -> sorted cmp l -> sorted cmp (sort_insert cmp x l).
Proof.
  intros Hx Hl. induction Hl as [|y l Hy Hl IH]; intros Hs; simpl.
  - apply sorted_cons. split; [done|]. by intros i j a b Hij Ha.
  - apply sorted_cons in Hs as [Hyl Hs].
    destruct (cmp x y <=? 0) eqn:Hxy.
    + apply Z.leb_le in Hxy. apply sorted_cons. split.
      * constructor; [done|].
        apply Forall_lookup. intros i z Hz.
        apply (ord_trans _ _ _ Hord x y z); [done..| |done|].
        -- by eapply (Forall_lookup_1 _ _ _ _ Hl).
        -- by eapply (Forall_lookup_1 _ _ _ _ Hyl).
      * apply sorted_cons. by split.
    + apply Z.leb_gt in Hxy. apply sorted_cons. split.
      * apply sort_insert_Forall; [|done].
        apply Z.lt_le_incl. by apply (cmp_gt_lt cmp pk dom Hord).
      * by apply IH.
Qed.

(** With an ordering, sorting gives a sorted sequence. *)
Lemma Array_sort_is_sorted (l : list (gmap string value)) :
  Forall dom l -> sorted cmp (Array_sort cmp l).
Proof.
  induction 1 as [|x l Hx Hl IH]; simpl.
  - by intros i j a b Hij Ha.
  - apply sort_insert_sorted; [done| |done]. by apply Array_sort_Forall.
Qed.
End SortResult.

(** X24. With a comparator supplied that is an ordering, the constructor
    leaves the array sorted by the comparator of the collection. *)
Lemma constructor_sorts options cmp dom w (els : list (gmap string value)) :
  io_comparator options = Some cmp ->
  ordering cmp (io_primaryKey options) dom ->
  store w !! io_elements options = Some els -> Forall dom els ->
  exists c w' els',
    new_Collection options w = (Normal c, w') /\
    elements_of c w' = Some els' /\ sorted (comparator c) els'.
Proof.
  intros Hcmp Hord Hstore Hdom.
  rewrite (new_Collection_eq options w els Hstore), Hcmp. simpl.
  eexists _, _, _. split; [done|]. unfold elements_of. simpl. split.
  - apply list_lookup_insert_eq. by eapply lookup_lt_Some.
  - by eapply Array_sort_is_sorted.
Qed.

(** * removeAll returns, whatever the order of the array *)

Lemma splice_remove_length_le {A} (l : list A) (i : nat) :
  (length (splice_remove l i) <= length l)%nat.
Proof.
  unfold splice_remove. rewrite length_app, length_take, length_drop. lia.
Qed.

Lemma remove_total this el w (els : list (gmap string value)) :
  elements_of this w = Some els ->
  exists r w' els',
    remove this el w = (r, w') /\ r <> Stuck /\
    elements_of this w' = Some els' /\ (length els' <= length els)%nat.
Proof.
  intros Hels.
  destruct (Reflect_has el (primaryKey this)) eqn:Hhas.
  - destruct (search_loop_total (S (length els)) (comparator this) els el
                0 (Z.of_nat (length els) - 1)) as [[i found] Hsearch]; [lia..|].
    rewrite (remove_eq this el w els i found Hhas Hels Hsearch).
    destruct found.
    + eexists _, _, _. split; [done|]. split; [done|].
      split; [by eapply elements_of_after_mutation|].
      apply splice_remove_length_le.
    + exists (Normal false), w, els. done.
  - unfold remove, bind. rewrite (searchIndex_throws this el w Hhas).
    eexists _, w, els. done.
Qed.

Lemma removeAll_loop_total this cond fuel :
  forall (i : nat) n (els : list (gmap string value)) w,
    elements_of this w = Some els ->
    (length els - i < fuel)%nat ->
    exists n' w', removeAll_loop fuel this cond i n w = (Normal n', w').
Proof.
  induction fuel as [|fuel IH]; intros i n els w Hels Hfuel; [lia|].
  simpl. unfold bind at 1. rewrite (this_elements_eq this w els Hels).
  destruct (els !! i) as [el|] eqn:Hi; [|by exists n, w].
  pose proof (lookup_lt_Some _ _ _ Hi) as Hlt.
  destruct (remove_total this el w els Hels)
    as (r & w1 & els1 & Hrem & Hr & Hels1 & Hlen).
  assert (Hstep : forall m, exists n' w',
    (_ <- not_awaited (remove this el) ;;
     removeAll_loop fuel this cond (S i) m) w = (Normal n', w')).
  { intros m. unfold bind, not_awaited. rewrite Hrem.
    destruct r; [| |done]; apply (IH (S i) m els1); (done || lia). }
  destruct cond as [c|]; [|by apply Hstep].
  destruct (c el); [by apply Hstep|].
  apply (IH (S i) n els); [done|lia].
Qed.

(** [removeAll] ends with a count on every array. *)
Lemma removeAll_returns this cond w (els : list (gmap string value)) :
  elements_of this w = Some els ->
  exists n w', removeAll this cond w = (Normal n, w').
Proof.
  intros Hels. unfold removeAll, bind.
  rewrite (this_elements_eq this w els Hels).
  apply (removeAll_loop_total this cond _ 0%nat 0 els); [done|lia].
Qed.

(** * Further properties: the methods on any array *)

Lemma search_loop_S fuel cmp els el left right :
  search_loop (S fuel) cmp els el left right =
    if left <=? right then
      match els !! Z.to_nat ((left + right) / 2) with
      | None => None
      | Some e =>
          if cmp el e <? 0
          then search_loop fuel cmp els el left ((left + right) / 2 - 1)
          else if 0 <? cmp el e
               then search_loop fuel cmp els el ((left + right) / 2 + 1) right
               else Some ((left + right) / 2, true)
      end
    else Some (left, false).
Proof. reflexivity. Qed.

(** The index the loop returns lies in the interval it started with. *)
Lemma search_loop_bounds fuel cmp els el :
  forall left right i found,
    0 <= left -> left <= right + 1 ->
    search_loop fuel cmp els el left right = Some (i, found) ->
    left <= i <= right + 1 /\ (found = true -> i <= right).
Proof.
  induction fuel as [|fuel IH]; intros left right i found Hl Hlr; [done|].
  rewrite search_loop_S.
  destruct (left <=? right) eqn:Hle.
  - apply Z.leb_le in Hle.
    assert (Hmid : left <= (left + right) / 2 <= right).
    { split; [apply Z.div_le_lower_bound|apply Z.div_le_upper_bound]; lia. }
    destruct (els !! Z.to_nat ((left + right) / 2)) as [e|]; [|done].
    destruct (cmp el e <? 0).
    + intros H. apply IH in H; [|lia..]. destruct H as [H1 H2].
      split; [lia|]. intros Hf. specialize (H2 Hf). lia.
    + destruct (0 <? cmp el e).
      * intros H. apply IH in H; [|lia..]. destruct H as [H1 H2].
        split; [lia|]. intros Hf. specialize (H2 Hf). lia.
      * intros [= <- <-]. split; [lia|intros _; lia].
  - apply Z.leb_gt in Hle. intros [= <- <-]. split; [lia|done].
Qed.

(** X1. On every array, sorted or not, [searchIndex] with an argument that
    has the key field returns an index between 0 and the length of the
    array, leaves the world as it is, and reports a tie only at an index
    whose record does tie with the argument. *)
Theorem searchIndex_in_bounds this el w (els : list (gmap string value)) :
  elements_of this w = Some els ->
  Reflect_has el (primaryKey this) = true ->
  exists (i : nat) (found : bool),
    searchIndex this el w = (Normal (Z.of_nat i, found), w) /\
    (i <= length els)%nat /\
    (found = true -> exists e, els !! i = Some e /\ comparator this el e = 0).
Proof.
  intros Hels Hhas.
  destruct (search_loop_total (S (length els)) (comparator this) els el
              0 (Z.of_nat (length els) - 1)) as [[i found] Hsearch]; [lia..|].
  destruct (search_loop_bounds _ _ _ _ 0 (Z.of_nat (length els) - 1) _ _
              ltac:(lia) ltac:(lia) Hsearch)
    as [Hi Hfound].
  exists (Z.to_nat i), found.
  rewrite (searchIndex_eq this el w els Hhas Hels), Hsearch.
  rewrite Z2Nat.id by lia. split; [done|]. split; [lia|].
  intros ->. by destruct (search_loop_found _ _ _ _ 0 _ _ ltac:(lia) Hsearch).
Qed.

Lemma searchIndex_in_bounds_witness :
  exists (i : nat) (found : bool),
    searchIndex (users_collection None) (user 2) (users_world [user 3; user 1])
      = (Normal (Z.of_nat i, found), users_world [user 3; user 1]) /\
    (i <= length [user 3; user 1])%nat /\
    (found = true ->
     exists e, [user 3; user 1] !! i = Some e /\
       comparator (users_collection None) (user 2) e = 0).
Proof.
  apply (searchIndex_in_bounds (users_collection None) (user 2)
           (users_world [user 3; user 1]) [user 3; user 1]).
  - reflexivity.
  - vm_compute. reflexivity.
Defined.

Lemma splice_insert_Permutation {A} (l : list A) (i : nat) (x : A) :
  splice_insert l i x ≡ₚ x :: l.
Proof.
  unfold splice_insert. rewrite <- Permutation_middle.
  by rewrite take_drop.
Qed.

Lemma splice_remove_Permutation {A} (l : list A) (i : nat) (x : A) :
  l !! i = Some x -> l ≡ₚ x :: splice_remove l i.
Proof.
  intros Hi. unfold splice_remove.
  rewrite <- (take_drop_middle l i x Hi) at 1.
  by rewrite <- Permutation_middle.
Qed.

(** X2. On every array, when [insert] with an argument that has the key
    field returns false, the world is as it was and a stored record ties
    with the argument; when it returns true, the argument has been put at
    an index within the array, every record stored before is kept, and
    [save] has been called once. *)
Theorem insert_effect this el w (els : list (gmap string value)) (b : bool) w' :
  elements_of this w = Some els ->
  Reflect_has el (primaryKey this) = true ->
  insert this el w = (Normal b, w') ->
  (b = false ->
     w' = w /\ exists e, e ∈ els /\ comparator this el e = 0) /\
  (b = true ->
     exists i : nat,
       (i <= length els)%nat /\
       elements_of this w' = Some (splice_insert els i el) /\
       splice_insert els i el ≡ₚ el :: els /\
       saves w' = (name this, elements this) :: saves w).
Proof.
  intros Hels Hhas.
  destruct (search_loop_total (S (length els)) (comparator this) els el
              0 (Z.of_nat (length els) - 1)) as [[i found] Hsearch]; [lia..|].
  destruct (search_loop_bounds _ _ _ _ 0 (Z.of_nat (length els) - 1) _ _
              ltac:(lia) ltac:(lia) Hsearch)
    as [Hi Hfound].
  rewrite (insert_eq this el w els i found Hhas Hels Hsearch).
  destruct found; intros [= <- <-].
  - split; [intros _|done]. split; [done|].
    destruct (search_loop_found _ _ _ _ 0 _ _ ltac:(lia) Hsearch)
      as (_ & e & He & Htie).
    exists e. split; [|done]. apply list_elem_of_lookup. eauto.
  - split; [done|intros _]. exists (Z.to_nat i). split; [lia|].
    split; [by eapply elements_of_after_mutation|].
    split; [apply splice_insert_Permutation|done].
Qed.

Lemma insert_effect_witness :
  (true = false ->
     after_mutation (users_collection None) [user 1; user 2; user 3]
       (users_world [user 1; user 3]) = users_world [user 1; user 3] /\
     exists e, e ∈ [user 1; user 3] /\
       comparator (users_collection None) (user 2) e = 0) /\
  (true = true ->
     exists i : nat,
       (i <= length [user 1; user 3])%nat /\
       elements_of (users_collection None)
         (after_mutation (users_collection None) [user 1; user 2; user 3]
            (users_world [user 1; user 3]))
         = Some (splice_insert [user 1; user 3] i (user 2)) /\
       splice_insert [user 1; user 3] i (user 2) ≡ₚ user 2 :: [user 1; user 3] /\
       saves (after_mutation (users_collection None) [user 1; user 2; user 3]
                (users_world [user 1; user 3]))
         = (name (users_collection None), elements (users_collection None))
             :: saves (users_world [user 1; user 3])).
Proof.
  apply (insert_effect (users_collection None) (user 2)
           (users_world [user 1; user 3]) [user 1; user 3] true).
  - reflexivity.
  - vm_compute. reflexivity.
  - vm_compute. reflexivity.
Defined.

(** X3. On every array, when [remove] with an argument that has the key
    field returns false, the world is as it was; when it returns true,
    exactly one record has been taken out, one that ties with the
    argument, all the others are kept in their order, and [save] has been
    called once. *)
Theorem remove_effect this el w (els : list (gmap string value)) (b : bool) w' :
  elements_of this w = Some els ->
  Reflect_has el (primaryKey this) = true ->
  remove this el w = (Normal b, w') ->
  (b = false -> w' = w) /\
  (b = true ->
     exists (i : nat) e,
       els !! i = Some e /\ comparator this el e = 0 /\
       elements_of this w' = Some (splice_remove els i) /\
       els ≡ₚ e :: splice_remove els i /\
       splice_remove els i `sublist_of` els /\
       saves w' = (name this, elements this) :: saves w).
Proof.
  intros Hels Hhas.
  destruct (search_loop_total (S (length els)) (comparator this) els el
              0 (Z.of_nat (length els) - 1)) as [[i found] Hsearch]; [lia..|].
  rewrite (remove_eq this el w els i found Hhas Hels Hsearch).
  destruct found; intros [= <- <-]; [|by split].
  split; [done|intros _].
  destruct (search_loop_found _ _ _ _ 0 _ _ ltac:(lia) Hsearch)
    as (_ & e & He & Htie).
  exists (Z.to_nat i), e. do 2 (split; [done|]).
  split; [by eapply elements_of_after_mutation|].
  split; [by apply splice_remove_Permutation|]. split; [|done].
  unfold splice_remove. rewrite <- (take_drop (Z.to_nat i) els) at 3.
  apply sublist_app; [done|].
  assert (drop (S (Z.to_nat i)) els = drop 1 (drop (Z.to_nat i) els)) as ->
    by (rewrite drop_drop; f_equal; lia).
  apply sublist_drop.
Qed.

Lemma remove_effect_witness :
  (true = false ->
     after_mutation (users_collection None) [user 1]
       (users_world [user 1; user 3]) = users_world [user 1; user 3]) /\
  (true = true ->
     exists (i : nat) e,
       [user 1; user 3] !! i = Some e /\
       comparator (users_collection None) (user 3) e = 0 /\
       elements_of (users_collection None)
         (after_mutation (users_collection None) [user 1]
            (users_world [user 1; user 3]))
         = Some (splice_remove [user 1; user 3] i) /\
       [user 1; user 3] ≡ₚ e :: splice_remove [user 1; user 3] i /\
       splice_remove [user 1; user 3] i `sublist_of` [user 1; user 3] /\
       saves (after_mutation (users_collection None) [user 1]
                (users_world [user 1; user 3]))
         = (name (users_collection None), elements (users_collection None))
             :: saves (users_world [user 1; user 3])).
Proof.
  apply (remove_effect (users_collection None) (user 3)
           (users_world [user 1; user 3]) [user 1; user 3] true).
  - reflexivity.
  - vm_compute. reflexivity.
  - vm_compute. reflexivity.
Defined.



(** * Further properties: the lookups *)

Lemma searchIndex_world this el w : snd (searchIndex this el w) = w.
Proof.
  unfold searchIndex. destruct (negb (Reflect_has el (primaryKey this))); [done|].
  unfold bind, this_elements.
  destruct (store w !! elements this) as [els|]; [|done].
  by destruct (search_loop _ _ _ _ _ _) as [[??]|].
Qed.

(** X5. [find], [findAll] and [has] never change the world, whatever they
    are given and however they end: no array is touched, the root object
    is not rebound and [save] is not called. *)
Theorem lookups_leave_world this el cond arg w :
  snd (find this el w) = w /\
  snd (findAll this cond w) = w /\
  snd (has this arg w) = w.
Proof.
  assert (Hfind : forall el0, snd (find this el0 w) = w).
  { intros el0. unfold find, bind.
    pose proof (searchIndex_world this el0 w) as Hw.
    destruct (searchIndex this el0 w) as [[[i found]|e|] w1]; simpl in Hw;
      subst w1; [|done..].
    destruct found; [|done].
    unfold this_elements. by destruct (store w !! elements this). }
  split; [apply Hfind|]. split.
  - destruct cond as [c|]; unfold findAll, iterate, bind, this_elements;
      by destruct (store w !! elements this).
  - destruct arg as [el0|c]; unfold has, bind.
    + pose proof (Hfind el0) as Hw.
      destruct (find this el0 w) as [[o|e|] w1]; simpl in Hw; by subst w1.
    + unfold this_elements. by destruct (store w !! elements this).
Qed.

Lemma filter_sublist (c : Condition) (els : list (gmap string value)) :
  List.filter c els `sublist_of` els.
Proof.
  induction els as [|x l IH]; simpl; [constructor|].
  destruct (c x); by constructor.
Qed.

Lemma sorted_sublist cmp (l1 l2 : list (gmap string value)) :
  l1 `sublist_of` l2 -> sorted cmp l2 -> sorted cmp l1.
Proof.
  induction 1 as [|x l1 l2 Hsub IH|x l1 l2 Hsub IH]; intros Hs; [done|..].
  - apply sorted_cons in Hs as [Hx Hs]. apply sorted_cons. split; [|by apply IH].
    apply Forall_forall. intros y Hy.
    apply (proj1 (Forall_forall _ _) Hx). by apply (sublist_subseteq _ _ Hsub).
  - apply sorted_cons in Hs as [_ Hs]. by apply IH.
Qed.

(** X6. [findAll] with no predicate returns the whole sequence; with a
    predicate it returns exactly the stored records that satisfy it, in
    the order of the iteration, so the result of a sorted collection is
    sorted. *)
Theorem findAll_result this w (els : list (gmap string value)) :
  elements_of this w = Some els ->
  findAll this None w = (Normal els, w) /\
  forall c : Condition,
    exists l,
      findAll this (Some c) w = (Normal l, w) /\
      (forall x, x ∈ l <-> x ∈ els /\ c x = true) /\
      l `sublist_of` els /\
      (forall cmp, sorted cmp els -> sorted cmp l).
Proof.
  intros Hels. unfold findAll, iterate, bind.
  rewrite (this_elements_eq this w els Hels). split; [done|].
  intros c. exists (List.filter c els). split; [done|]. split.
  - intros x. rewrite !list_elem_of_In. apply filter_In.
  - split; [apply filter_sublist|].
    intros cmp Hs. eapply sorted_sublist; [apply filter_sublist|done].
Qed.

Lemma findAll_result_witness :
  findAll (users_collection None) None (users_world [user 1; user 3])
    = (Normal [user 1; user 3], users_world [user 1; user 3]) /\
  forall c : Condition,
    exists l,
      findAll (users_collection None) (Some c) (users_world [user 1; user 3])
        = (Normal l, users_world [user 1; user 3]) /\
      (forall x, x ∈ l <-> x ∈ [user 1; user 3] /\ c x = true) /\
      l `sublist_of` [user 1; user 3] /\
      (forall cmp, sorted cmp [user 1; user 3] -> sorted cmp l).
Proof.
  apply (findAll_result (users_collection None) (users_world [user 1; user 3])
           [user 1; user 3]).
  reflexivity.
Defined.

(** X7. [has] with a predicate answers true exactly when some stored
    record satisfies the predicate, that is when [findAll] with that
    predicate returns a record; it does so on every array. *)
Theorem has_predicate this (c : Condition) w (els : list (gmap string value)) :
  elements_of this w = Some els ->
  exists b : bool,
    has this (inr c) w = (Normal b, w) /\
    (b = true <-> exists x, x ∈ els /\ c x = true) /\
    (b = true <-> fst (findAll this (Some c) w) <> Normal []).
Proof.
  intros Hels. unfold has, findAll, iterate, bind.
  rewrite (this_elements_eq this w els Hels). simpl.
  eexists. split; [done|].
  assert (Hfilter : List.filter c els = [] <-> List.find c els = None).
  { clear Hels. induction els as [|x l IH]; simpl; [done|].
    destruct (c x); [split; discriminate|done]. }
  destruct (List.find c els) as [x|] eqn:Hfind.
  - split.
    + split; [|done]. intros _. exists x.
      apply find_some in Hfind as [Hin Hc]. by rewrite list_elem_of_In.
    + split; [|done]. intros _ [= Hnil]. apply Hfilter in Hnil. discriminate.
  - split.
    + split; [done|]. intros (x & Hin & Hc).
      rewrite list_elem_of_In in Hin.
      pose proof (find_none _ _ Hfind x Hin). congruence.
    + split; [done|]. intros Hne. destruct Hne. f_equal. by apply Hfilter.
Qed.

Lemma has_predicate_witness :
  exists b : bool,
    has (users_collection None) (inr (fun _ => true))
        (users_world [user 1; user 3])
      = (Normal b, users_world [user 1; user 3]) /\
    (b = true <-> exists x, x ∈ [user 1; user 3] /\ (fun _ => true) x = true) /\
    (b = true <->
     fst (findAll (users_collection None) (Some (fun _ => true))
            (users_world [user 1; user 3])) <> Normal []).
Proof.
  apply (has_predicate (users_collection None) (fun _ => true)
           (users_world [user 1; user 3]) [user 1; user 3]).
  reflexivity.
Defined.

(** * Further properties: lookups and mutations by key on a sorted array *)

(** X8. On an array sorted by an ordering, [find] returns a stored record
    whose key-field value is that of the argument, or undefined when no
    stored record has that key-field value. *)
Theorem find_by_key this (dom : gmap string value -> Prop)
    (els : list (gmap string value)) el w :
  ordering (comparator this) (primaryKey this) dom ->
  elements_of this w = Some els ->
  sorted (comparator this) els -> Forall dom els -> dom el ->
  exists o,
    find this el w = (Normal o, w) /\
    (forall e, o = Some e ->
       e ∈ els /\ e !! primaryKey this = el !! primaryKey this) /\
    (o = None ->
       forall e, e ∈ els -> e !! primaryKey this <> el !! primaryKey this).
Proof.
  intros Hord Hels Hs Hdom Hel.
  destruct (find_sorted this dom Hord els el w Hels Hs Hdom Hel)
    as (o & Hfind & Hsome & Hnone).
  exists o. split; [done|]. split.
  - intros e He. destruct (Hsome e He) as [Hin Htie]. split; [done|].
    symmetry. apply (ord_key _ _ _ Hord el e); [done| |done].
    by eapply (proj1 (Forall_forall _ _) Hdom).
  - intros Ho e Hin Hkey. apply (Hnone Ho e Hin).
    apply (ord_key _ _ _ Hord el e); [done| |done].
    by eapply (proj1 (Forall_forall _ _) Hdom).
Qed.

Lemma find_by_key_witness :
  exists o,
    find (users_collection None) (named 3 "c") (users_world [user 1; user 3])
      = (Normal o, users_world [user 1; user 3]) /\
    (forall e, o = Some e ->
       e ∈ [user 1; user 3] /\
       e !! primaryKey (users_collection None)
         = named 3 "c" !! primaryKey (users_collection None)) /\
    (o = None ->
       forall e, e ∈ [user 1; user 3] ->
         e !! primaryKey (users_collection None)
           <> named 3 "c" !! primaryKey (users_collection None)).
Proof.
  apply (find_by_key (users_collection None) (number_key "id")
           [user 1; user 3] (named 3 "c") (users_world [user 1; user 3])).
  - apply default_ordering.
  - reflexivity.
  - apply sorted_pair. vm_compute. discriminate.
  - repeat constructor; eexists; vm_compute; reflexivity.
  - eexists. vm_compute. reflexivity.
Defined.

(** X9. On an array sorted by an ordering, [has] with a record answers
    true exactly when a stored record has the key-field value of that
    record. *)
Theorem has_record_by_key this (dom : gmap string value -> Prop)
    (els : list (gmap string value)) el w :
  ordering (comparator this) (primaryKey this) dom ->
  elements_of this w = Some els ->
  sorted (comparator this) els -> Forall dom els -> dom el ->
  exists b : bool,
    has this (inl el) w = (Normal b, w) /\
    (b = true <->
     exists e, e ∈ els /\ e !! primaryKey this = el !! primaryKey this).
Proof.
  intros Hord Hels Hs Hdom Hel.
  destruct (find_sorted this dom Hord els el w Hels Hs Hdom Hel)
    as (o & Hfind & Hsome & Hnone).
  assert (Hkey : forall e, e ∈ els ->
            (comparator this el e = 0 <->
             e !! primaryKey this = el !! primaryKey this)).
  { intros e Hin.
    rewrite (ord_key _ _ _ Hord el e Hel
               (proj1 (Forall_forall _ _) Hdom e Hin)).
    split; by intros ->. }
  unfold has, bind. rewrite Hfind. destruct o as [e|].
  - exists true. split; [done|]. split; [|done]. intros _.
    destruct (Hsome e eq_refl) as [Hin Htie]. exists e. split; [done|].
    by apply Hkey.
  - exists false. split; [done|]. split; [done|].
    intros (e & Hin & Hk). destruct (Hnone eq_refl e Hin). by apply Hkey.
Qed.

Lemma has_record_by_key_witness :
  exists b : bool,
    has (users_collection None) (inl (user 5)) (users_world [user 1; user 3])
      = (Normal b, users_world [user 1; user 3]) /\
    (b = true <->
     exists e, e ∈ [user 1; user 3] /\
       e !! primaryKey (users_collection None)
         = user 5 !! primaryKey (users_collection None)).
Proof.
  apply (has_record_by_key (users_collection None) (number_key "id")
           [user 1; user 3] (user 5) (users_world [user 1; user 3])).
  - apply default_ordering.
  - reflexivity.
  - apply sorted_pair. vm_compute. discriminate.
  - repeat constructor; eexists; vm_compute; reflexivity.
  - eexists. vm_compute. reflexivity.
Defined.

(** X10. On an array sorted by an ordering, [update] and [remove] with a
    record whose key-field value no stored record has return false and
    leave the world as it is; [insert] of such a record does not return
    false: it puts the record into the sequence, at an index within it. *)
Theorem absent_key this (dom : gmap string value -> Prop)
    (els : list (gmap string value)) el w :
  ordering (comparator this) (primaryKey this) dom ->
  elements_of this w = Some els ->
  sorted (comparator this) els -> Forall dom els -> dom el ->
  (forall e, e ∈ els -> e !! primaryKey this <> el !! primaryKey this) ->
  update this el w = (Normal false, w) /\
  remove this el w = (Normal false, w) /\
  exists r w' (i : nat),
    insert this el w = (r, w') /\ r <> Normal false /\
    (i <= length els)%nat /\
    elements_of this w' = Some (splice_insert els i el).
Proof.
  intros Hord Hels Hs Hdom Hel Habsent.
  assert (Hnotie : forall e, e ∈ els -> comparator this el e <> 0).
  { intros e Hin Htie. apply (Habsent e Hin). symmetry.
    apply (ord_key _ _ _ Hord el e); [done| |done].
    by eapply (proj1 (Forall_forall _ _) Hdom). }
  split; [|split].
  - destruct (update_sorted this dom Hord els el w Hels Hs Hdom Hel)
      as (b & els' & w' & Hupd & _ & _ & _ & Hfalse & Htrue).
    destruct b; [|by destruct (Hfalse eq_refl) as (-> & _)].
    destruct (Htrue eq_refl) as (i & e & He & Htie & _).
    destruct (Hnotie e); [|done]. apply list_elem_of_lookup. eauto.
  - destruct (remove_sorted this dom Hord els el w Hels Hs Hdom Hel)
      as (b & els' & w' & Hrem & _ & _ & _ & Hfalse & Htrue).
    destruct b; [|by destruct (Hfalse eq_refl) as (-> & _)].
    destruct (Htrue eq_refl) as (i & e & He & Htie & _).
    destruct (Hnotie e); [|done]. apply list_elem_of_lookup. eauto.
  - destruct (insert_sorted this dom Hord els el w Hels Hs Hdom Hel)
      as (b & els' & w' & Hins & Hels' & _ & _ & Hfalse & Htrue).
    destruct b.
    + destruct (Htrue eq_refl) as (_ & i & Hi & -> & _).
      by exists (Normal true), w', i.
    + destruct (Hfalse eq_refl) as (_ & _ & e & Hin & Htie).
      by destruct (Hnotie e Hin).
Qed.

Lemma absent_key_witness :
  update (users_collection None) (user 2) (users_world [user 1; user 3])
    = (Normal false, users_world [user 1; user 3]) /\
  remove (users_collection None) (user 2) (users_world [user 1; user 3])
    = (Normal false, users_world [user 1; user 3]) /\
  exists r w' (i : nat),
    insert (users_collection None) (user 2) (users_world [user 1; user 3])
      = (r, w') /\ r <> Normal false /\
    (i <= length [user 1; user 3])%nat /\
    elements_of (users_collection None) w'
      = Some (splice_insert [user 1; user 3] i (user 2)).
Proof.
  apply (absent_key (users_collection None) (number_key "id")
           [user 1; user 3] (user 2) (users_world [user 1; user 3])).
  - apply default_ordering.
  - reflexivity.
  - apply sorted_pair. vm_compute. discriminate.
  - repeat constructor; eexists; vm_compute; reflexivity.
  - eexists. vm_compute. reflexivity.
  - intros e He.
    apply elem_of_cons in He as [->|He]; [vm_compute; discriminate|].
    apply elem_of_cons in He as [->|He]; [vm_compute; discriminate|].
    by apply elem_of_nil in He.
Defined.

(** * Further properties: one record per key *)

Lemma splice_remove_sublist {A} (l : list A) (i : nat) :
  splice_remove l i `sublist_of` l.
Proof.
  unfold splice_remove. rewrite <- (take_drop i l) at 3.
  apply sublist_app; [done|].
  assert (drop (S i) l = drop 1 (drop i l)) as ->
    by (rewrite drop_drop; f_equal; lia).
  apply sublist_drop.
Qed.


Section DistinctKeys.
Context (cmp : Comparator) (pk : string) (dom : gmap string value -> Prop).
Hypothesis Hord : ordering cmp pk dom.




End DistinctKeys.

Section KeysInvariant.
Context (this : Collection) (dom : gmap string value -> Prop).
Hypothesis Hord : ordering (comparator this) (primaryKey this) dom.

Local Abbreviation cmp := (comparator this).



End KeysInvariant.

Section RemoveAllCount.
Context (this : Collection) (dom : gmap string value -> Prop).
Hypothesis Hord : ordering (comparator this) (primaryKey this) dom.

Local Abbreviation cmp := (comparator this).

Lemma removeAll_loop_count cond fuel :
  forall (i : nat) n (els : list (gmap string value)) w,
    elements_of this w = Some els ->
    sorted cmp els -> Forall dom els ->
    (length els - i < fuel)%nat ->
    exists n' els' w',
      removeAll_loop fuel this cond i n w = (Normal n', w') /\
      elements_of this w' = Some els' /\
      sorted cmp els' /\ Forall dom els' /\
      els' `sublist_of` els /\
      n' = n + Z.of_nat (length els) - Z.of_nat (length els').
Proof.
  induction fuel as [|fuel IH]; intros i n els w Hels Hs Hdom Hfuel; [lia|].
  simpl. unfold bind at 1. rewrite (this_elements_eq this w els Hels).
  destruct (els !! i) as [el|] eqn:Hi.
  2:{ exists n, els, w. do 4 (split; [done|]). split; [done|lia]. }
  assert (el ∈ els) as Hin by (apply list_elem_of_lookup; eauto).
  assert (dom el) as Hel by apply (Forall_lookup_1 _ _ _ _ Hdom Hi).
  pose proof (lookup_lt_Some _ _ _ Hi) as Hlt.
  assert (Hstep : forall m, exists n' els' w',
    (_ <- not_awaited (remove this el) ;;
     removeAll_loop fuel this cond (S i) (m + 1)) w = (Normal n', w') /\
    elements_of this w' = Some els' /\
    sorted cmp els' /\ Forall dom els' /\
    els' `sublist_of` els /\
    n' = m + Z.of_nat (length els) - Z.of_nat (length els')).
  { intros m.
    destruct (remove_sorted this dom Hord els el w Hels Hs Hdom Hel)
      as (b & els1 & w1 & Hrem & Hels1 & Hs1 & Hdom1 & Hfalse & Htrue).
    destruct b.
    2:{ destruct (Hfalse eq_refl) as (_ & _ & Hnotie).
        destruct (Hnotie el Hin). by apply (cmp_refl _ _ dom Hord). }
    destruct (Htrue eq_refl) as (k & e & Hk & _ & -> & _).
    pose proof (lookup_lt_Some _ _ _ Hk) as Hklt.
    unfold bind, not_awaited. rewrite Hrem.
    destruct (IH (S i) (m + 1) (splice_remove els k) w1 Hels1 Hs1 Hdom1)
      as (n' & els' & w' & Hrun & Hels' & Hs' & Hdom' & Hsub & Hn).
    { rewrite splice_remove_length by done. lia. }
    exists n', els', w'. do 4 (split; [done|]). split.
    - etrans; [done|]. apply splice_remove_sublist.
    - rewrite splice_remove_length in Hn by done. lia. }
  destruct cond as [c|]; [|apply Hstep].
  destruct (c el); [apply Hstep|].
  apply (IH (S i) n els w); [done..|lia].
Qed.

(** X13. On an array sorted by an ordering, [removeAll] returns the number
    of records it took out: the length of the sequence drops by the count
    returned, the records left are records that were there, in their
    order, and the sequence stays sorted. *)
Lemma removeAll_count cond (els : list (gmap string value)) w :
  elements_of this w = Some els ->
  sorted cmp els -> Forall dom els ->
  exists n els' w',
    removeAll this cond w = (Normal n, w') /\
    elements_of this w' = Some els' /\
    Z.of_nat (length els') = Z.of_nat (length els) - n /\
    els' `sublist_of` els /\
    sorted cmp els'.
Proof.
  intros Hels Hs Hdom. unfold removeAll, bind.
  rewrite (this_elements_eq this w els Hels).
  destruct (removeAll_loop_count cond (S (length els)) 0%nat 0 els w
              Hels Hs Hdom ltac:(lia))
    as (n & els' & w' & Hrun & Hels' & Hs' & _ & Hsub & Hn).
  exists n, els', w'. do 2 (split; [done|]). split; [lia|done].
Qed.
End RemoveAllCount.

Section RemoveAllNoPredicate.
Context (this : Collection) (dom : gmap string value -> Prop).
Hypothesis Hord : ordering (comparator this) (primaryKey this) dom.

Local Abbreviation cmp := (comparator this).


End RemoveAllNoPredicate.

(** * Further properties: the constructor and the factory *)

(** X15. Whatever the comparator, the constructor keeps every record of
    the array it is given and adds none; it touches no other array, does
    not rebind the root object and does not call [save]. *)
Theorem constructor_keeps_records options w (els : list (gmap string value)) :
  store w !! io_elements options = Some els ->
  exists c w' els',
    new_Collection options w = (Normal c, w') /\
    elements c = io_elements options /\
    elements_of c w' = Some els' /\ els' ≡ₚ els /\
    data w' = data w /\ saves w' = saves w /\
    forall l, l <> io_elements options -> store w' !! l = store w !! l.
Proof.
  intros Hstore. rewrite (new_Collection_eq options w els Hstore).
  eexists _, _, _. split; [done|]. simpl. split; [done|].
  unfold elements_of. simpl. split.
  { apply list_lookup_insert_eq. by eapply lookup_lt_Some. }
  split; [apply Array_sort_Permutation|]. do 2 (split; [done|]).
  intros l Hl. by apply list_lookup_insert_ne.
Qed.

Lemma constructor_keeps_records_witness :
  exists c w' els',
    new_Collection (mkInternalCollectionOptions "users" (Some descending) 0 "id")
      (users_world [user 1; user 3]) = (Normal c, w') /\
    elements c = 0%nat /\
    elements_of c w' = Some els' /\ els' ≡ₚ [user 1; user 3] /\
    data w' = data (users_world [user 1; user 3]) /\
    saves w' = saves (users_world [user 1; user 3]) /\
    forall l, l <> 0%nat -> store w' !! l = store (users_world [user 1; user 3]) !! l.
Proof.
  apply (constructor_keeps_records
           (mkInternalCollectionOptions "users" (Some descending) 0 "id")
           (users_world [user 1; user 3]) [user 1; user 3]).
  reflexivity.
Defined.

(** X16. With no comparator supplied, on records that have no property
    named "undefined", the constructor leaves the whole world as it is:
    the sequence stays in the order it was given. *)
Theorem constructor_default_leaves_world options w
    (els : list (gmap string value)) :
  io_comparator options = None ->
  store w !! io_elements options = Some els ->
  Forall (fun a => a !! "undefined"%string = None) els ->
  exists c,
    new_Collection options w = (Normal c, w) /\
    comparator c = defaultComparator (Some (io_primaryKey options)) /\
    elements_of c w = Some els.
Proof.
  intros Hcmp Hstore Hels.
  rewrite (new_Collection_eq options w els Hstore), Hcmp. simpl.
  rewrite (constructor_default_keeps_order els Hels).
  rewrite (list_insert_id _ _ _ Hstore).
  eexists. split; [by destruct w|]. split; [done|]. done.
Qed.

Lemma constructor_default_leaves_world_witness :
  exists c,
    new_Collection (mkInternalCollectionOptions "users" None 0 "id")
      (users_world [user 3; user 1]) = (Normal c, users_world [user 3; user 1]) /\
    comparator c = defaultComparator (Some "id"%string) /\
    elements_of c (users_world [user 3; user 1]) = Some [user 3; user 1].
Proof.
  apply (constructor_default_leaves_world
           (mkInternalCollectionOptions "users" None 0 "id")
           (users_world [user 3; user 1]) [user 3; user 1]).
  - reflexivity.
  - reflexivity.
  - repeat constructor.
Defined.

Lemma ascending_numbers a b x y :
  a !! "id"%string = Some (VNum x) -> b !! "id"%string = Some (VNum y) ->
  ascending a b = x - y.
Proof.
  intros Ha Hb. unfold ascending, get. simpl. by rewrite Ha, Hb.
Qed.

(** [(a, b) => a.id - b.id] is an ordering on records with a numeric id. *)
Lemma ascending_ordering : ordering ascending "id" (number_key "id").
Proof.
  split.
  - intros a b [x Ha] [y Hb].
    rewrite (ascending_numbers a b x y Ha Hb), (ascending_numbers b a y x Hb Ha).
    lia.
  - intros a b c [x Ha] [y Hb] [z Hc].
    rewrite (ascending_numbers a b x y Ha Hb), (ascending_numbers b c y z Hb Hc),
      (ascending_numbers a c x z Ha Hc). lia.
  - intros a [x Ha]. by exists (VNum x).
  - intros a b [x Ha] [y Hb].
    rewrite (ascending_numbers a b x y Ha Hb), Ha, Hb.
    split; intros H; simplify_eq; [|lia]. do 2 f_equal. lia.
  - intros e el _ [x Hel] _. exists x.
    rewrite Object_assign_key by eauto. done.
Qed.

(** X17. With a comparator supplied that is an ordering, the factory on a
    name bound to an array that is already sorted by that comparator
    leaves the whole world as it is: a further collection for a name does
    not disturb the array the earlier ones wrap. *)
Theorem database_on_sorted options cmp (dom : gmap string value -> Prop) w l
    (els : list (gmap string value)) :
  co_comparator options = Some cmp ->
  ordering cmp (co_primaryKey options) dom ->
  data w !! co_name options = Some (PArray l) ->
  store w !! l = Some els ->
  Forall dom els -> sorted cmp els ->
  exists c,
    database options w = (Normal c, w) /\
    elements c = l /\ elements_of c w = Some els.
Proof.
  intros Hcmp _ Hdata Hstore _ Hs. unfold database, bind, get_or_create.
  rewrite Hdata. simpl.
  rewrite (new_Collection_eq _ w els) by done. simpl. rewrite Hcmp. simpl.
  rewrite (Array_sort_sorted _ els Hs).
  rewrite (list_insert_id _ _ _ Hstore).
  eexists. split; [by destruct w|]. split; done.
Qed.

Lemma database_on_sorted_witness :
  exists c,
    database (users_options (Some ascending)) (users_world [user 1; user 3])
      = (Normal c, users_world [user 1; user 3]) /\
    elements c = 0%nat /\
    elements_of c (users_world [user 1; user 3]) = Some [user 1; user 3].
Proof.
  apply (database_on_sorted (users_options (Some ascending)) ascending
           (number_key "id") (users_world [user 1; user 3]) 0
           [user 1; user 3]).
  - reflexivity.
  - apply ascending_ordering.
  - reflexivity.
  - reflexivity.
  - repeat constructor; eexists; vm_compute; reflexivity.
  - apply sorted_pair. vm_compute. discriminate.
Defined.

Lemma constructor_sorts_witness :
  exists c w' els',
    new_Collection (mkInternalCollectionOptions "users" (Some ascending) 0 "id")
      (users_world [user 3; user 1]) = (Normal c, w') /\
    elements_of c w' = Some els' /\ sorted (comparator c) els'.
Proof.
  apply (constructor_sorts
           (mkInternalCollectionOptions "users" (Some ascending) 0 "id")
           ascending (number_key "id") (users_world [user 3; user 1])
           [user 3; user 1]).
  - reflexivity.
  - apply ascending_ordering.
  - reflexivity.
  - repeat constructor; eexists; vm_compute; reflexivity.
Defined.


Lemma mutations_keep_sorted_witness :
  exists els' w',
    run (users_collection None)
        [Insert (user 2); Update (named 3 "c"); Remove (user 1); RemoveAll None]
        (users_world [user 1; user 3]) = (Normal tt, w') /\
    iterate (users_collection None) w' = (Normal els', w') /\
    Array_sort (comparator (users_collection None)) els' = els'.
Proof.
  apply (mutations_keep_sorted (users_collection None) (number_key "id")
           (default_ordering "id")
           [Insert (user 2); Update (named 3 "c"); Remove (user 1); RemoveAll None]
           [user 1; user 3] (users_world [user 1; user 3])).
  - repeat constructor; eexists; vm_compute; reflexivity.
  - reflexivity.
  - apply sorted_pair. vm_compute. discriminate.
  - repeat constructor; eexists; vm_compute; reflexivity.
Defined.



Lemma removeAll_count_witness :
  exists n els' w',
    removeAll (users_collection None) (Some (fun _ => true))
      (users_world [user 1; user 3]) = (Normal n, w') /\
    elements_of (users_collection None) w' = Some els' /\
    Z.of_nat (length els') = Z.of_nat (length [user 1; user 3]) - n /\
    els' `sublist_of` [user 1; user 3] /\
    sorted (comparator (users_collection None)) els'.
Proof.
  apply (removeAll_count (users_collection None) (number_key "id")
           (default_ordering "id") (Some (fun _ => true)) [user 1; user 3]
           (users_world [user 1; user 3])).
  - reflexivity.
  - apply sorted_pair. vm_compute. discriminate.
  - repeat constructor; eexists; vm_compute; reflexivity.
Defined.


(** * Further properties: round trips on a sorted array *)

(** X18. On an array sorted by an ordering, when a stored record has the
    key-field value of the argument, [insert] returns false and leaves the
    world as it is, while [update] and [remove] do not return false:
    [update] leaves a sequence of the same length and [remove] one that is
    shorter by one record. *)
Theorem present_key this (dom : gmap string value -> Prop)
    (els : list (gmap string value)) el w :
  ordering (comparator this) (primaryKey this) dom ->
  elements_of this w = Some els ->
  sorted (comparator this) els -> Forall dom els -> dom el ->
  (exists e, e ∈ els /\ e !! primaryKey this = el !! primaryKey this) ->
  insert this el w = (Normal false, w) /\
  (exists r w' (els' : list (gmap string value)),
     update this el w = (r, w') /\ r <> Normal false /\
     elements_of this w' = Some els' /\ length els' = length els) /\
  (exists r w' (els' : list (gmap string value)),
     remove this el w = (r, w') /\ r <> Normal false /\
     elements_of this w' = Some els' /\ S (length els') = length els).
Proof.
  intros Hord Hels Hs Hdom Hel (e & Hin & Hkey).
  assert (comparator this el e = 0) as Htie.
  { apply (ord_key _ _ _ Hord); [done| |done].
    by eapply (proj1 (Forall_forall _ _) Hdom). }
  split; [|split].
  - destruct (insert_sorted this dom Hord els el w Hels Hs Hdom Hel)
      as (b & els' & w' & Hins & _ & _ & _ & Hfalse & Htrue).
    destruct b; [|by destruct (Hfalse eq_refl) as (-> & _)].
    destruct (Htrue eq_refl) as [Hnotie _]. by destruct (Hnotie e Hin).
  - destruct (update_sorted this dom Hord els el w Hels Hs Hdom Hel)
      as (b & els' & w' & Hupd & Hels' & _ & _ & Hfalse & Htrue).
    destruct b.
    + destruct (Htrue eq_refl) as (i & e0 & _ & _ & -> & _).
      exists (Normal true), w', (<[i := Object_assign e0 el]> els).
      do 3 (split; [done|]). apply length_insert.
    + destruct (Hfalse eq_refl) as (_ & _ & Hnotie). by destruct (Hnotie e Hin).
  - destruct (remove_sorted this dom Hord els el w Hels Hs Hdom Hel)
      as (b & els' & w' & Hrem & Hels' & _ & _ & Hfalse & Htrue).
    destruct b.
    + destruct (Htrue eq_refl) as (i & e0 & He0 & _ & -> & _).
      exists (Normal true), w', (splice_remove els i).
      do 3 (split; [done|]).
      pose proof (lookup_lt_Some _ _ _ He0) as Hlt.
      rewrite splice_remove_length by done. lia.
    + destruct (Hfalse eq_refl) as (_ & _ & Hnotie). by destruct (Hnotie e Hin).
Qed.

Lemma present_key_witness :
  insert (users_collection None) (named 3 "c") (users_world [user 1; user 3])
    = (Normal false, users_world [user 1; user 3]) /\
  (exists r w' (els' : list (gmap string value)),
     update (users_collection None) (named 3 "c") (users_world [user 1; user 3])
       = (r, w') /\ r <> Normal false /\
     elements_of (users_collection None) w' = Some els' /\
     length els' = length [user 1; user 3]) /\
  (exists r w' (els' : list (gmap string value)),
     remove (users_collection None) (named 3 "c") (users_world [user 1; user 3])
       = (r, w') /\ r <> Normal false /\
     elements_of (users_collection None) w' = Some els' /\
     S (length els') = length [user 1; user 3]).
Proof.
  apply (present_key (users_collection None) (number_key "id")
           [user 1; user 3] (named 3 "c") (users_world [user 1; user 3])).
  - apply default_ordering.
  - reflexivity.
  - apply sorted_pair. vm_compute. discriminate.
  - repeat constructor; eexists; vm_compute; reflexivity.
  - eexists. vm_compute. reflexivity.
  - exists (user 3). split; [|vm_compute; reflexivity].
    apply elem_of_cons. right. apply elem_of_cons. by left.
Defined.

(** X19. On an array sorted by an ordering, [find] right after an [insert]
    that returned true returns the inserted record itself. *)
Theorem insert_find_round_trip this (dom : gmap string value -> Prop)
    (els : list (gmap string value)) r w w' :
  ordering (comparator this) (primaryKey this) dom ->
  elements_of this w = Some els ->
  sorted (comparator this) els -> Forall dom els -> dom r ->
  insert this r w = (Normal true, w') ->
  find this r w' = (Normal (Some r), w').
Proof.
  intros Hord Hels Hs Hdom Hr Hins.
  by apply (find_after_insert this this dom els r w w').
Qed.

Lemma insert_find_round_trip_witness :
  find (users_collection None) (user 2)
    (after_mutation (users_collection None) [user 1; user 2; user 3]
       (users_world [user 1; user 3]))
  = (Normal (Some (user 2)),
     after_mutation (users_collection None) [user 1; user 2; user 3]
       (users_world [user 1; user 3])).
Proof.
  apply (insert_find_round_trip (users_collection None) (number_key "id")
           [user 1; user 3] (user 2) (users_world [user 1; user 3])).
  - apply default_ordering.
  - reflexivity.
  - apply sorted_pair. vm_compute. discriminate.
  - repeat constructor; eexists; vm_compute; reflexivity.
  - eexists. vm_compute. reflexivity.
  - vm_compute. reflexivity.
Defined.



(** * Further properties: edge cases of the default ordering and of removeAll *)




Lemma remove_shrinks this el w (els : list (gmap string value)) :
  elements_of this w = Some els ->
  exists r w' els',
    remove this el w = (r, w') /\ r <> Stuck /\
    elements_of this w' = Some els' /\ els' `sublist_of` els.
Proof.
  intros Hels.
  destruct (Reflect_has el (primaryKey this)) eqn:Hhas.
  - destruct (search_loop_total (S (length els)) (comparator this) els el
                0 (Z.of_nat (length els) - 1)) as [[i found] Hsearch]; [lia..|].
    rewrite (remove_eq this el w els i found Hhas Hels Hsearch).
    destruct found.
    + eexists _, _, _. split; [done|]. split; [done|].
      split; [by eapply elements_of_after_mutation|].
      apply splice_remove_sublist.
    + by exists (Normal false), w, els.
  - unfold remove, bind. rewrite (searchIndex_throws this el w Hhas).
    by eexists _, w, els.
Qed.

Lemma removeAll_loop_any this cond fuel :
  forall (i : nat) n (els : list (gmap string value)) w,
    elements_of this w = Some els ->
    (length els - i < fuel)%nat ->
    exists n' els' w',
      removeAll_loop fuel this cond i n w = (Normal n', w') /\
      elements_of this w' = Some els' /\ els' `sublist_of` els /\
      n <= n' <= n + Z.of_nat (length els - i).
Proof.
  induction fuel as [|fuel IH]; intros i n els w Hels Hfuel; [lia|].
  simpl. unfold bind at 1. rewrite (this_elements_eq this w els Hels).
  destruct (els !! i) as [el|] eqn:Hi.
  2:{ exists n, els, w. do 3 (split; [done|]). lia. }
  pose proof (lookup_lt_Some _ _ _ Hi) as Hlt.
  destruct (remove_shrinks this el w els Hels)
    as (r & w1 & els1 & Hrem & Hr & Hels1 & Hsub1).
  pose proof (sublist_length _ _ Hsub1) as Hlen1.
  assert (Hstep : exists n' els' w',
    (_ <- not_awaited (remove this el) ;;
     removeAll_loop fuel this cond (S i) (n + 1)) w = (Normal n', w') /\
    elements_of this w' = Some els' /\ els' `sublist_of` els /\
    n <= n' <= n + Z.of_nat (length els - i)).
  { unfold bind, not_awaited. rewrite Hrem.
    destruct (IH (S i) (n + 1) els1 w1 Hels1 ltac:(lia))
      as (n' & els' & w' & Hrun & Hels' & Hsub & Hn).
    exists n', els', w'.
    split; [by destruct r|]. split; [done|].
    split; [by etrans|lia]. }
  destruct cond as [c|]; [|done].
  destruct (c el); [done|].
  destruct (IH (S i) n els w Hels ltac:(lia))
    as (n' & els' & w' & Hrun & Hels' & Hsub & Hn).
  exists n', els', w'. do 3 (split; [done|]). lia.
Qed.

(** X22. On every array, sorted or not, [removeAll] ends with a count
    between 0 and the number of records: the loop over the array it
    mutates always stops, the records left are records that were there,
    in their order, and none is added or changed. *)
Theorem removeAll_on_any_array this cond w (els : list (gmap string value)) :
  elements_of this w = Some els ->
  exists n els' w',
    removeAll this cond w = (Normal n, w') /\
    elements_of this w' = Some els' /\
    els' `sublist_of` els /\
    0 <= n <= Z.of_nat (length els).
Proof.
  intros Hels. unfold removeAll, bind.
  rewrite (this_elements_eq this w els Hels).
  destruct (removeAll_loop_any this cond (S (length els)) 0%nat 0 els w
              Hels ltac:(lia)) as (n & els' & w' & Hrun & Hels' & Hsub & Hn).
  exists n, els', w'. do 3 (split; [done|]). lia.
Qed.

Lemma removeAll_on_any_array_witness :
  exists n els' w',
    removeAll (users_collection None) None (users_world [user 3; user 1])
      = (Normal n, w') /\
    elements_of (users_collection None) w' = Some els' /\
    els' `sublist_of` [user 3; user 1] /\
    0 <= n <= Z.of_nat (length [user 3; user 1]).
Proof.
  apply (removeAll_on_any_array (users_collection None) None
           (users_world [user 3; user 1]) [user 3; user 1]).
  reflexivity.
Defined.
